(** * MusicPlayer: the playback simulator of [src/components/MusicPlayer.tsx]

    A shallow embedding of the widget's logic: the helpers [clamp01] and
    [formatTime], the animation [tick], the debounced play/pause toggle and
    the volume update, together with the part of the browser the component
    talks to (timeouts, animation-frame requests, the interval sampler).

    Numbers.  A TypeScript [number] is modelled by [JS.number]: an exact
    rational, or one of the three special values of IEEE 754 arithmetic
    (NaN and the two infinities).  Rounding of finite results and the sign
    of zero are not modelled; what the special values do under each
    operator is.

    State.  [Player] gathers the React state, the refs and the motion
    values of one mounted component, and the browser's pending callbacks.
    Handles returned by the browser are fresh positive integers.  A state
    update is committed together with the effects that depend on it: the
    animation effect is re-run, cleanup first, when [isPlaying] changed.
    An [Event] is one turn of the browser's event loop. *)

From Stdlib Require Import ZArith QArith Qround Qminmax Lqa Lia.
From Stdlib Require Import List Bool String Ascii DecimalString.
From Stdlib Require DecimalPos DecimalZ.
Import ListNotations.

Local Open Scope Q_scope.

(** ** JavaScript numbers *)

Module JS.

Inductive number : Type :=
| Fin (q : Q)
| PosInf
| NegInf
| NaN.

Definition zero : number := Fin 0.
Definition one : number := Fin 1.

Definition neg (x : number) : number :=
  match x with
  | Fin a => Fin (- a)
  | PosInf => NegInf
  | NegInf => PosInf
  | NaN => NaN
  end.

(** [x + y] *)
Definition add (x y : number) : number :=
  match x, y with
  | NaN, _ | _, NaN => NaN
  | Fin a, Fin b => Fin (a + b)
  | PosInf, NegInf | NegInf, PosInf => NaN
  | PosInf, _ | _, PosInf => PosInf
  | NegInf, _ | _, NegInf => NegInf
  end.

(** [x - y] *)
Definition sub (x y : number) : number := add x (neg y).

(** An infinity of the sign of [a], NaN when [a] is zero. *)
Definition signed_inf (a : Q) (pos : bool) : number :=
  match a ?= 0 with
  | Eq => NaN
  | Gt => if pos then PosInf else NegInf
  | Lt => if pos then NegInf else PosInf
  end.

(** [x * y] *)
Definition mul (x y : number) : number :=
  match x, y with
  | NaN, _ | _, NaN => NaN
  | Fin a, Fin b => Fin (a * b)
  | Fin a, PosInf | PosInf, Fin a => signed_inf a true
  | Fin a, NegInf | NegInf, Fin a => signed_inf a false
  | PosInf, PosInf | NegInf, NegInf => PosInf
  | PosInf, NegInf | NegInf, PosInf => NegInf
  end.

(** [x / y]; a finite non-zero number over zero is an infinity, zero over
    zero is NaN. *)
Definition div (x y : number) : number :=
  match x, y with
  | NaN, _ | _, NaN => NaN
  | Fin a, Fin b => if Qeq_bool b 0 then signed_inf a true else Fin (a / b)
  | Fin _, (PosInf | NegInf) => Fin 0
  | PosInf, Fin b => if Qle_bool 0 b then PosInf else NegInf
  | NegInf, Fin b => if Qle_bool 0 b then NegInf else PosInf
  | (PosInf | NegInf), (PosInf | NegInf) => NaN
  end.

(** Rounding towards zero. *)
Definition Qtrunc (a : Q) : Z :=
  if Qle_bool 0 a then Qfloor a else Qceiling a.

(** [x % y]: the remainder of the truncated division, with the sign of the
    dividend. *)
Definition rem (x y : number) : number :=
  match x, y with
  | NaN, _ | _, NaN => NaN
  | (PosInf | NegInf), _ => NaN
  | Fin a, (PosInf | NegInf) => Fin a
  | Fin a, Fin b =>
      if Qeq_bool b 0 then NaN else Fin (a - b * inject_Z (Qtrunc (a / b)))
  end.

(** [Math.max(x, y)] *)
Definition max (x y : number) : number :=
  match x, y with
  | NaN, _ | _, NaN => NaN
  | PosInf, _ | _, PosInf => PosInf
  | NegInf, z | z, NegInf => z
  | Fin a, Fin b => if Qle_bool a b then Fin b else Fin a
  end.

(** [Math.min(x, y)] *)
Definition min (x y : number) : number :=
  match x, y with
  | NaN, _ | _, NaN => NaN
  | NegInf, _ | _, NegInf => NegInf
  | PosInf, z | z, PosInf => z
  | Fin a, Fin b => if Qle_bool a b then Fin a else Fin b
  end.

(** [Math.floor(x)] *)
Definition floor (x : number) : number :=
  match x with
  | Fin a => Fin (inject_Z (Qfloor a))
  | _ => x
  end.

(** Decimal digits of an integer. *)
Definition digits (z : Z) : string := NilZero.string_of_int (Z.to_int z).

(** Whether a rational is a whole number. *)
Definition isInteger (a : Q) : bool := Qeq_bool (inject_Z (Qfloor a)) a.

(** The digits of the fraction [num / den] after the decimal point, at most
    [fuel] of them; the expansion stops where it ends. *)
Fixpoint fraction (fuel : nat) (num den : Z) : string :=
  match fuel with
  | O => EmptyString
  | S k =>
      if (num =? 0)%Z then EmptyString
      else
        String (ascii_of_nat (48 + Z.to_nat (10 * num / den)))
          (fraction k ((10 * num) mod den) den)
  end.

(** A number that is not whole, in positional notation: sign, integer
    part, point, fractional digits ([23.9] prints as "23.9"). *)
Definition decimal (a : Q) : string :=
  let n := Z.abs (Qnum a) in
  let d := Zpos (Qden a) in
  append (if (Qnum a <? 0)%Z then "-" else "")
    (append (digits (n / d)) (String "." (fraction 17 (n mod d) d))).

(** [String(x)].  A whole number prints as its decimal digits, any other
    finite number with its fractional digits, so that only [Math.floor]
    makes a label whole.  This is [Number::toString] on the whole numbers
    of magnitude below 10^21 (beyond, JavaScript switches to exponent
    notation; the statements about labels that bound their argument stay
    under it) and on the numbers with a short decimal expansion; a long
    expansion is cut after 17 fractional digits, where JavaScript prints
    the shortest digits that identify the double. *)
Definition toString (x : number) : string :=
  match x with
  | NaN => "NaN"
  | PosInf => "Infinity"
  | NegInf => "-Infinity"
  | Fin a => if isInteger a then digits (Qfloor a) else decimal a
  end.

(** [s.padStart(n, "0")] *)
Fixpoint zeros (n : nat) : string :=
  match n with
  | O => EmptyString
  | S k => String "0"%char (zeros k)
  end.

Definition padStart0 (n : nat) (s : string) : string :=
  append (zeros (n - String.length s)) s.

(** Equality of numbers up to the representation of the rational. *)
Definition eqv (x y : number) : Prop :=
  match x, y with
  | Fin a, Fin b => a == b
  | PosInf, PosInf | NegInf, NegInf | NaN, NaN => True
  | _, _ => False
  end.

(** [lo <= x < hi], for a finite [x]. *)
Definition within (lo hi : Q) (x : number) : Prop :=
  match x with
  | Fin a => lo <= a < hi
  | _ => False
  end.

(** [lo <= x <= hi], for a finite [x]. *)
Definition between (lo hi : Q) (x : number) : Prop :=
  match x with
  | Fin a => lo <= a <= hi
  | _ => False
  end.

Definition finite (x : number) : Prop :=
  match x with
  | Fin _ => True
  | _ => False
  end.

End JS.

Notation "x === y" := (JS.eqv x y) (at level 70, no associativity).

(** ** Module-level constants and helpers *)

Inductive PlayerState : Type := playing | paused | loading.

Definition TOGGLE_DELAY_MS : Z := 500.
Definition PROGRESS_DURATION_MS : JS.number := JS.Fin 225000.

Definition clamp01 (value : JS.number) : JS.number :=
  JS.min JS.one (JS.max JS.zero value).

Definition formatTime (totalSeconds : JS.number) : string :=
  let clamped := JS.max JS.zero (JS.floor totalSeconds) in
  let minutes := JS.floor (JS.div clamped (JS.Fin 60)) in
  let seconds := JS.rem clamped (JS.Fin 60) in
  append (JS.toString minutes)
    (append ":" (JS.padStart0 2 (JS.toString seconds))).


(** ** The component and the browser around it *)

(** The part of [getBoundingClientRect()] the volume update reads. *)
Record DOMRect : Type := {
  left : JS.number;
  width : JS.number
}.

(** A pending [window.setTimeout]: its handle, the clock value at which it
    is due, and the [nextState] its callback closes over. *)
Record Timeout : Type := {
  handle : Z;
  due : Z;
  nextState : PlayerState
}.

Record Player : Type := {
  (* React state *)
  playerState : PlayerState;
  volume : JS.number;
  currentSeconds : JS.number;
  (* refs *)
  toggleTimeoutRef : option Z;
  isMountedRef : bool;
  lastFrameRef : option JS.number;
  (* motion values *)
  artworkRotation : JS.number;
  progress : JS.number;
  (* [rafId] of the live run of the animation effect *)
  rafId : Z;
  (* browser: clock in ms, handle counter, pending timeouts, pending
     animation-frame requests, the label sampler's interval *)
  clock : Z;
  nextHandle : Z;
  timeouts : list Timeout;
  frames : list Z;
  interval : option Z
}.

Section Setters.
Variable st : Player.

Definition set_playerState (v : PlayerState) : Player :=
  {| playerState := v; volume := volume st;
     currentSeconds := currentSeconds st;
     toggleTimeoutRef := toggleTimeoutRef st;
     isMountedRef := isMountedRef st; lastFrameRef := lastFrameRef st;
     artworkRotation := artworkRotation st; progress := progress st;
     rafId := rafId st; clock := clock st; nextHandle := nextHandle st;
     timeouts := timeouts st; frames := frames st;
     interval := interval st |}.

Definition set_volume (v : JS.number) : Player :=
  {| playerState := playerState st; volume := v;
     currentSeconds := currentSeconds st;
     toggleTimeoutRef := toggleTimeoutRef st;
     isMountedRef := isMountedRef st; lastFrameRef := lastFrameRef st;
     artworkRotation := artworkRotation st; progress := progress st;
     rafId := rafId st; clock := clock st; nextHandle := nextHandle st;
     timeouts := timeouts st; frames := frames st;
     interval := interval st |}.

Definition set_currentSeconds (v : JS.number) : Player :=
  {| playerState := playerState st; volume := volume st;
     currentSeconds := v;
     toggleTimeoutRef := toggleTimeoutRef st;
     isMountedRef := isMountedRef st; lastFrameRef := lastFrameRef st;
     artworkRotation := artworkRotation st; progress := progress st;
     rafId := rafId st; clock := clock st; nextHandle := nextHandle st;
     timeouts := timeouts st; frames := frames st;
     interval := interval st |}.

Definition set_toggleTimeoutRef (v : option Z) : Player :=
  {| playerState := playerState st; volume := volume st;
     currentSeconds := currentSeconds st;
     toggleTimeoutRef := v;
     isMountedRef := isMountedRef st; lastFrameRef := lastFrameRef st;
     artworkRotation := artworkRotation st; progress := progress st;
     rafId := rafId st; clock := clock st; nextHandle := nextHandle st;
     timeouts := timeouts st; frames := frames st;
     interval := interval st |}.

Definition set_isMountedRef (v : bool) : Player :=
  {| playerState := playerState st; volume := volume st;
     currentSeconds := currentSeconds st;
     toggleTimeoutRef := toggleTimeoutRef st;
     isMountedRef := v; lastFrameRef := lastFrameRef st;
     artworkRotation := artworkRotation st; progress := progress st;
     rafId := rafId st; clock := clock st; nextHandle := nextHandle st;
     timeouts := timeouts st; frames := frames st;
     interval := interval st |}.

Definition set_lastFrameRef (v : option JS.number) : Player :=
  {| playerState := playerState st; volume := volume st;
     currentSeconds := currentSeconds st;
     toggleTimeoutRef := toggleTimeoutRef st;
     isMountedRef := isMountedRef st; lastFrameRef := v;
     artworkRotation := artworkRotation st; progress := progress st;
     rafId := rafId st; clock := clock st; nextHandle := nextHandle st;
     timeouts := timeouts st; frames := frames st;
     interval := interval st |}.

Definition set_artworkRotation (v : JS.number) : Player :=
  {| playerState := playerState st; volume := volume st;
     currentSeconds := currentSeconds st;
     toggleTimeoutRef := toggleTimeoutRef st;
     isMountedRef := isMountedRef st; lastFrameRef := lastFrameRef st;
     artworkRotation := v; progress := progress st;
     rafId := rafId st; clock := clock st; nextHandle := nextHandle st;
     timeouts := timeouts st; frames := frames st;
     interval := interval st |}.

Definition set_progress (v : JS.number) : Player :=
  {| playerState := playerState st; volume := volume st;
     currentSeconds := currentSeconds st;
     toggleTimeoutRef := toggleTimeoutRef st;
     isMountedRef := isMountedRef st; lastFrameRef := lastFrameRef st;
     artworkRotation := artworkRotation st; progress := v;
     rafId := rafId st; clock := clock st; nextHandle := nextHandle st;
     timeouts := timeouts st; frames := frames st;
     interval := interval st |}.

Definition set_rafId (v : Z) : Player :=
  {| playerState := playerState st; volume := volume st;
     currentSeconds := currentSeconds st;
     toggleTimeoutRef := toggleTimeoutRef st;
     isMountedRef := isMountedRef st; lastFrameRef := lastFrameRef st;
     artworkRotation := artworkRotation st; progress := progress st;
     rafId := v; clock := clock st; nextHandle := nextHandle st;
     timeouts := timeouts st; frames := frames st;
     interval := interval st |}.

Definition set_clock (v : Z) : Player :=
  {| playerState := playerState st; volume := volume st;
     currentSeconds := currentSeconds st;
     toggleTimeoutRef := toggleTimeoutRef st;
     isMountedRef := isMountedRef st; lastFrameRef := lastFrameRef st;
     artworkRotation := artworkRotation st; progress := progress st;
     rafId := rafId st; clock := v; nextHandle := nextHandle st;
     timeouts := timeouts st; frames := frames st;
     interval := interval st |}.

Definition set_nextHandle (v : Z) : Player :=
  {| playerState := playerState st; volume := volume st;
     currentSeconds := currentSeconds st;
     toggleTimeoutRef := toggleTimeoutRef st;
     isMountedRef := isMountedRef st; lastFrameRef := lastFrameRef st;
     artworkRotation := artworkRotation st; progress := progress st;
     rafId := rafId st; clock := clock st; nextHandle := v;
     timeouts := timeouts st; frames := frames st;
     interval := interval st |}.

Definition set_timeouts (v : list Timeout) : Player :=
  {| playerState := playerState st; volume := volume st;
     currentSeconds := currentSeconds st;
     toggleTimeoutRef := toggleTimeoutRef st;
     isMountedRef := isMountedRef st; lastFrameRef := lastFrameRef st;
     artworkRotation := artworkRotation st; progress := progress st;
     rafId := rafId st; clock := clock st; nextHandle := nextHandle st;
     timeouts := v; frames := frames st;
     interval := interval st |}.

Definition set_frames (v : list Z) : Player :=
  {| playerState := playerState st; volume := volume st;
     currentSeconds := currentSeconds st;
     toggleTimeoutRef := toggleTimeoutRef st;
     isMountedRef := isMountedRef st; lastFrameRef := lastFrameRef st;
     artworkRotation := artworkRotation st; progress := progress st;
     rafId := rafId st; clock := clock st; nextHandle := nextHandle st;
     timeouts := timeouts st; frames := v;
     interval := interval st |}.

Definition set_interval (v : option Z) : Player :=
  {| playerState := playerState st; volume := volume st;
     currentSeconds := currentSeconds st;
     toggleTimeoutRef := toggleTimeoutRef st;
     isMountedRef := isMountedRef st; lastFrameRef := lastFrameRef st;
     artworkRotation := artworkRotation st; progress := progress st;
     rafId := rafId st; clock := clock st; nextHandle := nextHandle st;
     timeouts := timeouts st; frames := frames st;
     interval := v |}.
End Setters.

(** *** Browser primitives *)

Definition setTimeout (cb : PlayerState) (delay : Z) (st : Player)
  : Z * Player :=
  let h := nextHandle st in
  let t := {| handle := h; due := clock st + delay; nextState := cb |} in
  (h, set_nextHandle (set_timeouts st (timeouts st ++ [t])) (h + 1)%Z).

Definition clearTimeout (h : Z) (st : Player) : Player :=
  set_timeouts st
    (filter (fun t => negb (handle t =? h)%Z) (timeouts st)).

Definition requestAnimationFrame (st : Player) : Z * Player :=
  let h := nextHandle st in
  (h, set_nextHandle (set_frames st (frames st ++ [h])) (h + 1)%Z).

Definition cancelAnimationFrame (h : Z) (st : Player) : Player :=
  set_frames st (filter (fun f => negb (f =? h)%Z) (frames st)).

Definition setInterval (st : Player) : Player :=
  let h := nextHandle st in
  set_nextHandle (set_interval st (Some h)) (h + 1)%Z.

Definition clearInterval (st : Player) : Player := set_interval st None.

(** Truthiness of a [number | null] ref: [null] and [0] are falsy. *)
Definition truthy (r : option Z) : bool :=
  match r with
  | Some h => negb (h =? 0)%Z
  | None => false
  end.

(** *** Derived flags *)

Definition PlayerState_eqb (a b : PlayerState) : bool :=
  match a, b with
  | playing, playing | paused, paused | loading, loading => true
  | _, _ => false
  end.

Definition isPlaying (st : Player) : bool :=
  PlayerState_eqb (playerState st) playing.

Definition isLoading (st : Player) : bool :=
  PlayerState_eqb (playerState st) loading.

Definition totalSeconds : JS.number :=
  JS.div PROGRESS_DURATION_MS (JS.Fin 1000).

(** *** The animation effect (dependencies: [isPlaying]) *)

(** [Math.max(0, now - (lastFrameRef.current ?? now))] *)
Definition deltaMs (lastFrame : option JS.number) (now : JS.number)
  : JS.number :=
  let last := match lastFrame with Some l => l | None => now end in
  JS.max JS.zero (JS.sub now last).

Definition tick (now : JS.number) (st : Player) : Player :=
  if negb (isMountedRef st) then st
  else
    let delta := deltaMs (lastFrameRef st) now in
    let st := set_lastFrameRef st (Some now) in
    let rotationDelta := JS.div (JS.mul delta (JS.Fin 360)) (JS.Fin 20000) in
    let st :=
      set_artworkRotation st
        (JS.rem (JS.add (artworkRotation st) rotationDelta) (JS.Fin 360)) in
    let nextProgress :=
      JS.add (progress st) (JS.div delta PROGRESS_DURATION_MS) in
    let st := set_progress st (JS.rem nextProgress (JS.Fin 1)) in
    let (h, st) := requestAnimationFrame st in
    set_rafId st h.

(** Body of the effect: reset the timestamp when not playing, otherwise
    request the first frame of a new run. *)
Definition animationEffect (st : Player) : Player :=
  if negb (isPlaying st) then set_lastFrameRef st None
  else
    let (h, st) := requestAnimationFrame st in
    set_rafId st h.

(** Cleanup of the effect's previous run; only a run that was playing
    returned one. *)
Definition animationCleanup (wasPlaying : bool) (st : Player) : Player :=
  if wasPlaying then cancelAnimationFrame (rafId st) st else st.

(** [setPlayerState(next)] followed by React's commit: the animation effect
    is re-run, cleanup first, exactly when [isPlaying] changed. *)
Definition setPlayerState (next : PlayerState) (st : Player) : Player :=
  let was := isPlaying st in
  let st := set_playerState st next in
  if Bool.eqb was (isPlaying st) then st
  else animationEffect (animationCleanup was st).

(** *** Handlers *)

Definition toggleTimeoutCallback (next : PlayerState) (st : Player)
  : Player :=
  if negb (isMountedRef st) then st else setPlayerState next st.

Definition handleTogglePlayPause (st : Player) : Player :=
  if isLoading st then st
  else
    let next := if isPlaying st then paused else playing in
    let st := setPlayerState loading st in
    let st :=
      match toggleTimeoutRef st with
      | Some h => if truthy (Some h) then clearTimeout h st else st
      | None => st
      end in
    let (h, st) := setTimeout next TOGGLE_DELAY_MS st in
    set_toggleTimeoutRef st (Some h).

(** [track] is what [document.getElementById("volume-track")] found, with
    its bounding box. *)
Definition handleSetVolumeFromClientX (clientX : JS.number)
  (track : option DOMRect) (st : Player) : Player :=
  match track with
  | None => st
  | Some rect =>
      let next := clamp01 (JS.div (JS.sub clientX (left rect)) (width rect)) in
      set_volume st next
  end.

Definition onPointerMove (buttons : Z) (clientX : JS.number)
  (track : option DOMRect) (st : Player) : Player :=
  if negb (Z.land buttons 1 =? 1)%Z then st
  else handleSetVolumeFromClientX clientX track st.

Definition sampleLabel (st : Player) : Player :=
  set_currentSeconds st (JS.mul (progress st) totalSeconds).

(** *** Mount and unmount *)

(** State of the first render, before any effect ran. *)
Definition firstRender : Player :=
  {| playerState := paused;
     volume := JS.Fin (65 # 100);
     currentSeconds := JS.mul (JS.Fin (3688889 # 10000000)) totalSeconds;
     toggleTimeoutRef := None;
     isMountedRef := false;
     lastFrameRef := None;
     artworkRotation := JS.Fin 0;
     progress := JS.Fin (3688889 # 10000000);
     rafId := 0%Z;
     clock := 0%Z;
     nextHandle := 1%Z;
     timeouts := [];
     frames := [];
     interval := None |}.

(** The three effects of the first commit, in source order. *)
Definition mount (st : Player) : Player :=
  let st := set_isMountedRef st true in
  let st := animationEffect st in
  setInterval st.

(** Their cleanups at teardown. *)
Definition unmount (st : Player) : Player :=
  let st := set_isMountedRef st false in
  let st :=
    match toggleTimeoutRef st with
    | Some h => if truthy (Some h) then clearTimeout h st else st
    | None => st
    end in
  let st := animationCleanup (isPlaying st) st in
  clearInterval st.

Definition initial : Player := mount firstRender.

(** *** Events *)

Inductive Event : Type :=
| Elapse (ms : Z)
| Click
| TimeoutFires (h : Z)
| FrameFires (h : Z) (now : Q)
| IntervalFires
| PointerDown (clientX : Q) (track : option DOMRect)
| PointerMove (buttons : Z) (clientX : Q) (track : option DOMRect)
| Unmount.

Definition findTimeout (h : Z) (st : Player) : option Timeout :=
  find (fun t => (handle t =? h)%Z) (timeouts st).

(** One event of the browser's loop; [None] when the event cannot occur in
    [st]: a callback that is not pending or not yet due, input on a widget
    that is no longer in the page, time running backwards. *)
Definition step (e : Event) (st : Player) : option Player :=
  match e with
  | Elapse ms =>
      if (0 <=? ms)%Z then Some (set_clock st (clock st + ms)%Z) else None
  | Click =>
      if isMountedRef st then Some (handleTogglePlayPause st) else None
  | TimeoutFires h =>
      match findTimeout h st with
      | Some t =>
          if (due t <=? clock st)%Z
          then Some (toggleTimeoutCallback (nextState t) (clearTimeout h st))
          else None
      | None => None
      end
  | FrameFires h now =>
      if existsb (Z.eqb h) (frames st)
      then Some (tick (JS.Fin now) (cancelAnimationFrame h st))
      else None
  | IntervalFires =>
      match interval st with
      | Some _ => Some (sampleLabel st)
      | None => None
      end
  | PointerDown clientX track =>
      if isMountedRef st
      then Some (handleSetVolumeFromClientX (JS.Fin clientX) track st)
      else None
  | PointerMove buttons clientX track =>
      if isMountedRef st
      then Some (onPointerMove buttons (JS.Fin clientX) track st)
      else None
  | Unmount =>
      if isMountedRef st then Some (unmount st) else None
  end.

Fixpoint run (es : list Event) (st : Player) : option Player :=
  match es with
  | [] => Some st
  | e :: es' =>
      match step e st with
      | Some st' => run es' st'
      | None => None
      end
  end.

Inductive reachable : Player -> Prop :=
| reach_initial : reachable initial
| reach_step e st st' :
    reachable st -> step e st = Some st' -> reachable st'.

(** * Specification

    ** The specification's arithmetic *)

(** [x mod m] as the specification means it: the representative of [x] in
    [[0, m)], obtained with the floor of the quotient. *)
Definition Qmod (x m : Q) : Q := x - m * inject_Z (Qfloor (x / m)).

(** [clamp01] on the rationals. *)
Definition Qclamp01 (q : Q) : Q := Qmin 1 (Qmax 0 q).

(** ** The specification's statements *)

(** The [nextState] a toggle request computes in [st]. *)
Definition toggleTarget (st : Player) : PlayerState :=
  if isPlaying st then paused else playing.

(** The specification's "last toggle wins": toggle A, then toggle B before
    A's delay has elapsed; the delayed transition that fires afterwards
    sets the target of B. *)
Definition last_toggle_wins (st : Player) : Prop :=
  forall (d d' h : Z) (stA stB stC : Player),
    (0 <= d < TOGGLE_DELAY_MS)%Z ->
    run [Click; Elapse d] st = Some stA ->
    step Click stA = Some stB ->
    run [Elapse d'; TimeoutFires h] stB = Some stC ->
    playerState stC = toggleTarget stA.

(** The specification's "the timestamp is reset whenever the Playing loop
    stops": an event after which no frame request is pending any more
    leaves the timestamp of the last frame reset. *)
Definition timestamp_reset_on_stop (st : Player) : Prop :=
  forall (e : Event) (st' : Player),
    step e st = Some st' ->
    frames st <> [] -> frames st' = [] ->
    lastFrameRef st' = None.

(** ** Time labels as the specification prints them *)

(** The two digits of a number below 100. *)
Definition digit (d : Z) : ascii := ascii_of_nat (48 + Z.to_nat d).

Definition twoDigits (s : Z) : string :=
  String (digit (s / 10)) (String (digit (s mod 10)) EmptyString).

Fixpoint below (n : nat) : list Z :=
  match n with
  | O => []
  | S k => Z.of_nat k :: below k
  end.

(** ** The invariant *)

(** What every reachable state satisfies: at most one timeout is pending,
    it is the one [toggleTimeoutRef] names and it exists exactly while a
    mounted component is loading; at most one frame request is pending, it
    is the one [rafId] names and it exists exactly while a mounted
    component is playing; outside playing the timestamp of the last frame
    is reset; both animated quantities are in their ranges. *)
Record Inv (st : Player) : Prop := {
  inv_timeouts :
    timeouts st = [] \/
    exists t,
      timeouts st = [t] /\ toggleTimeoutRef st = Some (handle t) /\
      (0 < handle t)%Z /\ nextState t <> loading /\
      playerState st = loading /\ isMountedRef st = true;
  inv_loading :
    isMountedRef st = true -> playerState st = loading ->
    timeouts st <> [];
  inv_frames :
    frames st = [] \/
    (frames st = [rafId st] /\ playerState st = playing /\
     isMountedRef st = true);
  inv_playing :
    isMountedRef st = true -> playerState st = playing -> frames st <> [];
  inv_lastFrame_reset :
    playerState st <> playing -> lastFrameRef st = None;
  inv_lastFrame_finite :
    forall l, lastFrameRef st = Some l -> JS.finite l;
  inv_rotation : JS.within 0 360 (artworkRotation st);
  inv_progress : JS.within 0 1 (progress st);
  inv_handles : (0 < nextHandle st)%Z;
  inv_interval : isMountedRef st = false -> interval st = None
}.

(** ** Sample states *)

(** The state a trace leads to (the start state when it cannot run). *)
Definition after (es : list Event) (st : Player) : Player :=
  match run es st with
  | Some st' => st'
  | None => st
  end.

(** A mounted, playing component whose last frame was at [last]; the
    sample input of the statements about one tick. *)
Definition ticking (last : Q) : Player :=
  set_lastFrameRef (set_playerState initial playing) (Some (JS.Fin last)).

(** The component once it plays: one toggle from the initial state and its
    delayed transition. *)
Definition nowPlaying : Player :=
  after [Click; Elapse 500; TimeoutFires 2] initial.

(** The playing component after its first frame, at timestamp 100. *)
Definition midPlay : Player := after [FrameFires 3 100] nowPlaying.

(** A component about to resume: toggled from [paused], delay elapsed, the
    transition to [playing] due. *)
Definition resuming : Player := after [Click; Elapse 500] initial.

(** A component torn down 100 ms after a toggle, and the second that
    follows. *)
Definition tornDown : Player :=
  after [Unmount; Elapse 1000] (after [Click; Elapse 100] initial).

(** ** What the component renders *)

(** [aria-label] of the play/pause button. *)
Definition ariaLabel (st : Player) : string :=
  if isLoading st then "Loading"
  else if isPlaying st then "Pause" else "Play".

(** The elapsed-time label under the progress bar. *)
Definition elapsedLabel (st : Player) : string :=
  formatTime (currentSeconds st).

(** ** Further predicates on numbers, events and states *)

(** [x <= y] between finite numbers. *)
Definition number_le (x y : JS.number) : Prop :=
  match x, y with
  | JS.Fin a, JS.Fin b => a <= b
  | _, _ => False
  end.

(** A track that is laid out: its box has a finite left edge and a finite,
    positive width. *)
Definition laidOut (rect : DOMRect) : bool :=
  match left rect, width rect with
  | JS.Fin _, JS.Fin w => negb (Qle_bool w 0)
  | _, _ => false
  end.

(** Pointer events that find either no track or a laid-out one. *)
Definition onLaidOutTrack (e : Event) : bool :=
  match e with
  | PointerDown _ (Some rect) | PointerMove _ _ (Some rect) => laidOut rect
  | _ => true
  end.

Definition isPointer (e : Event) : bool :=
  match e with
  | PointerDown _ _ | PointerMove _ _ _ => true
  | _ => false
  end.

(** What else every reachable state satisfies: the displayed seconds lie
    within the track's duration, the label sampler is installed while the
    component is mounted, and a pending timeout is due at most
    [TOGGLE_DELAY_MS] ahead. *)
Record Live (st : Player) : Prop := {
  live_seconds : JS.within 0 225 (currentSeconds st);
  live_sampler : isMountedRef st = true -> interval st <> None;
  live_due :
    forall t, In t (timeouts st) ->
    (due t <= clock st + TOGGLE_DELAY_MS)%Z
}.

(** ** Proof automation *)

Ltac break_inv H :=
  destruct H as [IT IL IF IP IR IFin IRot IProg IH0 II].

Ltac inv_finish :=
  constructor; simpl;
  repeat match goal with
    | E : filter _ _ = [] |- _ => rewrite E
    end;
  intros;
  try tauto; try discriminate; try lia; try congruence; eauto.

Ltac split_ifs :=
  repeat match goal with
    | |- context [if ?c then _ else _] => destruct c
    | |- context [match ?c with Some _ => _ | None => _ end] => destruct c
    end.

(** * Proofs

    ** Facts about numbers *)

Lemma Qle_bool_false (a b : Q) : Qle_bool a b = false <-> b < a.
Proof.
  split; intro H.
  - apply Qnot_le_lt. intro L. apply Qle_bool_iff in L. congruence.
  - destruct (Qle_bool a b) eqn:E; trivial.
    apply Qle_bool_iff in E. lra.
Qed.

Lemma Qeq_bool_false (a b : Q) : ~ a == b -> Qeq_bool a b = false.
Proof.
  intro H. destruct (Qeq_bool a b) eqn:E; trivial.
  apply Qeq_bool_iff in E. contradiction.
Qed.

Lemma Qfloor_bounds (x : Q) :
  inject_Z (Qfloor x) <= x /\ x < inject_Z (Qfloor x) + 1.
Proof.
  split; [apply Qfloor_le|].
  pose proof (Qlt_floor x) as H. rewrite inject_Z_plus in H. exact H.
Qed.

Lemma Qfloor_unit (x : Q) : 0 <= x < 1 -> Qfloor x = 0%Z.
Proof.
  intros [H0 H1]. destruct (Qfloor_bounds x) as [Hl Hu].
  assert (A : inject_Z (Qfloor x) < 1) by lra.
  assert (B : -(1) < inject_Z (Qfloor x)) by lra.
  change 1 with (inject_Z 1) in A.
  change (-(1)) with (inject_Z (-1)) in B.
  rewrite <- Zlt_Qlt in A, B. lia.
Qed.

Lemma Qtrunc_nonneg (x : Q) : 0 <= x -> JS.Qtrunc x = Qfloor x.
Proof.
  intro H. unfold JS.Qtrunc.
  apply Qle_bool_iff in H. now rewrite H.
Qed.

Lemma Qdiv_nonneg (a b : Q) : 0 <= a -> 0 < b -> 0 <= a / b.
Proof.
  intros Ha Hb. apply Qle_shift_div_l; lra.
Qed.

Lemma Qmod_range (x m : Q) : 0 < m -> 0 <= Qmod x m < m.
Proof.
  intro Hm. unfold Qmod.
  destruct (Qfloor_bounds (x / m)) as [Hl Hu].
  set (f := inject_Z (Qfloor (x / m))) in *.
  assert (E : m * (x / m) == x) by (field; lra).
  assert (L : m * f <= m * (x / m)) by (apply Qmult_le_l; assumption).
  assert (U : m * (x / m) < m * (f + 1)) by (apply Qmult_lt_l; assumption).
  rewrite E in L, U. split; lra.
Qed.

Lemma Qmod_small (x m : Q) : 0 <= x < m -> Qmod x m == x.
Proof.
  intros [H0 H1]. unfold Qmod.
  assert (Hm : 0 < m) by lra.
  rewrite Qfloor_unit; [change (inject_Z 0) with 0; lra|].
  split; [apply Qdiv_nonneg; lra|].
  apply Qlt_shift_div_r; lra.
Qed.

#[local] Instance Qmod_comp : Proper (Qeq ==> Qeq ==> Qeq) Qmod.
Proof.
  intros x x' Hx m m' Hm. unfold Qmod.
  assert (E : Qfloor (x / m) = Qfloor (x' / m'))
    by (apply Qfloor_comp; rewrite Hx, Hm; reflexivity).
  rewrite E, Hx, Hm. reflexivity.
Qed.

(** On a non-negative dividend and a positive divisor, JavaScript's [%] is
    the specification's [mod]. *)
Lemma rem_nonneg (a b : Q) :
  0 <= a -> 0 < b -> JS.rem (JS.Fin a) (JS.Fin b) = JS.Fin (Qmod a b).
Proof.
  intros Ha Hb. unfold JS.rem, Qmod.
  rewrite Qeq_bool_false by lra.
  rewrite Qtrunc_nonneg by (apply Qdiv_nonneg; assumption).
  reflexivity.
Qed.

Lemma eqv_refl (x : JS.number) : x === x.
Proof. destruct x; simpl; trivial. reflexivity. Qed.

Lemma eqv_within (lo hi : Q) (x y : JS.number) :
  x === y -> JS.within lo hi y -> JS.within lo hi x.
Proof.
  destruct x, y; simpl; try tauto.
  intros E [H1 H2]. rewrite E. split; assumption.
Qed.

(** The elapsed time of a frame is finite and never negative; it is zero on
    the first frame of a run and when the clock did not move forward. *)
Lemma deltaMs_spec (lastFrame : option JS.number) (now : Q) :
  (forall l, lastFrame = Some l -> JS.finite l) ->
  exists e,
    deltaMs lastFrame (JS.Fin now) = JS.Fin e /\ 0 <= e /\
    (lastFrame = None -> e == 0) /\
    (forall l, lastFrame = Some (JS.Fin l) ->
       (now <= l -> e == 0) /\ (l <= now -> e == now - l)).
Proof.
  intro Hfin. unfold deltaMs, JS.zero.
  destruct lastFrame as [l|].
  - specialize (Hfin l eq_refl). destruct l as [l| | |]; try contradiction.
    simpl. destruct (Qle_bool 0 (now + - l)) eqn:E.
    + apply Qle_bool_iff in E. eexists; split; [reflexivity|].
      split; [assumption|]. split; [discriminate|].
      intros l' [= <-]. split; intro; lra.
    + apply Qle_bool_false in E. eexists; split; [reflexivity|].
      split; [lra|]. split; [discriminate|].
      intros l' [= <-]. split; intro; lra.
  - simpl. destruct (Qle_bool 0 (now + - now)) eqn:E.
    + eexists; split; [reflexivity|]. repeat split; try lra; discriminate.
    + eexists; split; [reflexivity|]. repeat split; try lra; discriminate.
Qed.

(** One step of a wrapped quantity: [(old + d) % m]. *)
Lemma advance_spec (old d m : Q) :
  0 <= old -> 0 <= d -> 0 < m ->
  JS.rem (JS.add (JS.Fin old) (JS.Fin d)) (JS.Fin m)
  = JS.Fin (Qmod (old + d) m).
Proof.
  intros Ho Hd Hm. simpl JS.add. apply rem_nonneg; lra.
Qed.

(** ** The animation tick *)

Lemma rotation_of_tick (now : JS.number) (st : Player) :
  isMountedRef st = true ->
  artworkRotation (tick now st)
  = JS.rem
      (JS.add (artworkRotation st)
         (JS.div (JS.mul (deltaMs (lastFrameRef st) now) (JS.Fin 360))
            (JS.Fin 20000)))
      (JS.Fin 360).
Proof. intro H. unfold tick. rewrite H. reflexivity. Qed.

Lemma progress_of_tick (now : JS.number) (st : Player) :
  isMountedRef st = true ->
  progress (tick now st)
  = JS.rem
      (JS.add (progress st)
         (JS.div (deltaMs (lastFrameRef st) now) PROGRESS_DURATION_MS))
      (JS.Fin 1).
Proof. intro H. unfold tick. rewrite H. reflexivity. Qed.

Lemma tick_lastFrameRef (now : JS.number) (st : Player) :
  isMountedRef st = true -> lastFrameRef (tick now st) = Some now.
Proof. intro H. unfold tick. rewrite H. reflexivity. Qed.

Lemma tick_unmounted (now : JS.number) (st : Player) :
  isMountedRef st = false -> tick now st = st.
Proof. intro H. unfold tick. now rewrite H. Qed.

Lemma rotationDelta_fin (e : Q) :
  JS.div (JS.mul (JS.Fin e) (JS.Fin 360)) (JS.Fin 20000)
  = JS.Fin (e * 360 / 20000).
Proof. reflexivity. Qed.

Lemma progressDelta_fin (e : Q) :
  JS.div (JS.Fin e) PROGRESS_DURATION_MS = JS.Fin (e / 225000).
Proof. reflexivity. Qed.

Lemma rotationDelta_nonneg (e : Q) : 0 <= e -> 0 <= e * 360 / 20000.
Proof. intro H. apply Qdiv_nonneg; lra. Qed.

Lemma progressDelta_nonneg (e : Q) : 0 <= e -> 0 <= e / 225000.
Proof. intro H. apply Qdiv_nonneg; lra. Qed.

Lemma eqv_Fin_inv (x : JS.number) (e : Q) :
  x === JS.Fin e -> exists e', x = JS.Fin e' /\ e' == e.
Proof. destruct x; simpl; try tauto. intro H. eauto. Qed.

Lemma progress_after_tick (st : Player) (now : JS.number) (e p : Q) :
  isMountedRef st = true ->
  deltaMs (lastFrameRef st) now === JS.Fin e ->
  0 <= e ->
  progress st = JS.Fin p ->
  0 <= p < 1 ->
  progress (tick now st) === JS.Fin (Qmod (p + e / 225000) 1) /\
  JS.within 0 1 (progress (tick now st)).
Proof.
  intros Hm Hd He Hp [Hp0 Hp1].
  apply eqv_Fin_inv in Hd. destruct Hd as (e' & Hd & Ee).
  assert (He' : 0 <= e') by (rewrite Ee; exact He).
  rewrite (progress_of_tick now st Hm), Hd, Hp, progressDelta_fin.
  rewrite advance_spec by (try apply progressDelta_nonneg; lra).
  assert (E : Qmod (p + e' / 225000) 1 == Qmod (p + e / 225000) 1)
    by (rewrite Ee; reflexivity).
  split; [exact E|].
  simpl. apply Qmod_range. lra.
Qed.



Lemma rotation_after_tick (st : Player) (now : JS.number) (e r : Q) :
  isMountedRef st = true ->
  deltaMs (lastFrameRef st) now === JS.Fin e ->
  0 <= e ->
  artworkRotation st = JS.Fin r ->
  0 <= r < 360 ->
  artworkRotation (tick now st)
  === JS.Fin (Qmod (r + e * 360 / 20000) 360) /\
  JS.within 0 360 (artworkRotation (tick now st)).
Proof.
  intros Hm Hd He Hr [Hr0 Hr1].
  apply eqv_Fin_inv in Hd. destruct Hd as (e' & Hd & Ee).
  assert (He' : 0 <= e') by (rewrite Ee; exact He).
  rewrite (rotation_of_tick now st Hm), Hd, Hr, rotationDelta_fin.
  rewrite advance_spec by (try apply rotationDelta_nonneg; lra).
  assert (E : Qmod (r + e' * 360 / 20000) 360
              == Qmod (r + e * 360 / 20000) 360)
    by (rewrite Ee; reflexivity).
  split; [exact E|].
  simpl. apply Qmod_range. lra.
Qed.



Lemma tick_frame_spec (st : Player) (now r p : Q) :
  isMountedRef st = true ->
  (forall l, lastFrameRef st = Some l -> JS.finite l) ->
  artworkRotation st = JS.Fin r -> 0 <= r < 360 ->
  progress st = JS.Fin p -> 0 <= p < 1 ->
  exists e,
    deltaMs (lastFrameRef st) (JS.Fin now) = JS.Fin e /\ 0 <= e /\
    artworkRotation (tick (JS.Fin now) st)
    === JS.Fin (Qmod (r + e * 360 / 20000) 360) /\
    JS.within 0 360 (artworkRotation (tick (JS.Fin now) st)) /\
    progress (tick (JS.Fin now) st)
    === JS.Fin (Qmod (p + e / 225000) 1) /\
    JS.within 0 1 (progress (tick (JS.Fin now) st)) /\
    (forall l, lastFrameRef st = Some (JS.Fin l) -> now <= l ->
       e == 0 /\
       artworkRotation (tick (JS.Fin now) st) === JS.Fin r /\
       progress (tick (JS.Fin now) st) === JS.Fin p).
Proof.
  intros Hm Hfin Hr Rr Hp Rp.
  destruct (deltaMs_spec (lastFrameRef st) now Hfin)
    as (e & Hd & He & _ & Hback).
  assert (Hd' : deltaMs (lastFrameRef st) (JS.Fin now) === JS.Fin e)
    by (rewrite Hd; apply eqv_refl).
  destruct (rotation_after_tick st (JS.Fin now) e r Hm Hd' He Hr Rr)
    as [R1 R2].
  destruct (progress_after_tick st (JS.Fin now) e p Hm Hd' He Hp Rp)
    as [P1 P2].
  exists e. repeat (split; [assumption|]).
  intros l Hl Hle. destruct (Hback l Hl) as [Hz _]. specialize (Hz Hle).
  split; [exact Hz|].
  destruct (artworkRotation (tick (JS.Fin now) st)) as [r'| | |];
    try contradiction.
  destruct (progress (tick (JS.Fin now) st)) as [p'| | |];
    try contradiction.
  simpl in *. split.
  - rewrite R1, Hz. rewrite <- (Qmod_small r 360) at 2 by assumption.
    apply Qmod_comp; [field | reflexivity].
  - rewrite P1, Hz. rewrite <- (Qmod_small p 1) at 2 by assumption.
    apply Qmod_comp; [field | reflexivity].
Qed.

(** C10.  Whatever the two timestamps, also when the current one is earlier
    than the recorded one, the elapsed time of a tick is clamped to a
    value [e >= 0]; the tick advances both quantities by that non-negative
    amount, leaves them in their ranges, and leaves them where they were
    when the clock ran backwards. *)
Theorem tick_clamped (st : Player) (now r p : Q) :
  isMountedRef st = true ->
  (forall l, lastFrameRef st = Some l -> JS.finite l) ->
  artworkRotation st = JS.Fin r -> 0 <= r < 360 ->
  progress st = JS.Fin p -> 0 <= p < 1 ->
  exists e,
    deltaMs (lastFrameRef st) (JS.Fin now) = JS.Fin e /\ 0 <= e /\
    artworkRotation (tick (JS.Fin now) st)
    === JS.Fin (Qmod (r + e * 360 / 20000) 360) /\
    JS.within 0 360 (artworkRotation (tick (JS.Fin now) st)) /\
    progress (tick (JS.Fin now) st)
    === JS.Fin (Qmod (p + e / 225000) 1) /\
    JS.within 0 1 (progress (tick (JS.Fin now) st)) /\
    (forall l, lastFrameRef st = Some (JS.Fin l) -> now <= l ->
       e == 0 /\
       artworkRotation (tick (JS.Fin now) st) === JS.Fin r /\
       progress (tick (JS.Fin now) st) === JS.Fin p).
Proof. exact (tick_frame_spec st now r p). Qed.

Lemma tick_clamped_witness :
  exists e,
    deltaMs (lastFrameRef (ticking 5000)) (JS.Fin 4000) = JS.Fin e /\
    0 <= e /\
    artworkRotation (tick (JS.Fin 4000) (ticking 5000))
    === JS.Fin (Qmod (0 + e * 360 / 20000) 360) /\
    JS.within 0 360 (artworkRotation (tick (JS.Fin 4000) (ticking 5000))) /\
    progress (tick (JS.Fin 4000) (ticking 5000))
    === JS.Fin (Qmod ((3688889 # 10000000) + e / 225000) 1) /\
    JS.within 0 1 (progress (tick (JS.Fin 4000) (ticking 5000))) /\
    (forall l, lastFrameRef (ticking 5000) = Some (JS.Fin l) -> 4000 <= l ->
       e == 0 /\
       artworkRotation (tick (JS.Fin 4000) (ticking 5000)) === JS.Fin 0 /\
       progress (tick (JS.Fin 4000) (ticking 5000))
       === JS.Fin (3688889 # 10000000)).
Proof.
  apply (tick_clamped (ticking 5000) 4000 0 (3688889 # 10000000)).
  - reflexivity.
  - intros l [= <-]. exact I.
  - reflexivity.
  - split; vm_compute; [discriminate | reflexivity].
  - reflexivity.
  - split; vm_compute; [discriminate | reflexivity].
Defined.

(** ** Time labels *)

Lemma below_In (n : nat) (z : Z) :
  (0 <= z < Z.of_nat n)%Z -> In z (below n).
Proof.
  induction n as [|n IH]; intro H; [lia|].
  simpl. destruct (Z.eq_dec z (Z.of_nat n)) as [->|Hne]; [now left|].
  right. apply IH. lia.
Qed.

Lemma padStart0_seconds (s : Z) :
  (0 <= s < 60)%Z -> JS.padStart0 2 (JS.digits s) = twoDigits s.
Proof.
  intro H.
  assert (A : forallb
                (fun z => String.eqb (JS.padStart0 2 (JS.digits z))
                            (twoDigits z))
                (below 60) = true) by (vm_compute; reflexivity).
  rewrite forallb_forall in A.
  apply String.eqb_eq, A, below_In. simpl. lia.
Qed.

(** A whole number prints as its digits. *)
Lemma toString_whole (a : Q) (k : Z) :
  a == inject_Z k -> JS.toString (JS.Fin a) = JS.digits k.
Proof.
  intro E. unfold JS.toString, JS.isInteger.
  rewrite (Qfloor_comp _ _ E), Qfloor_Z.
  assert (B : Qeq_bool (inject_Z k) a = true)
    by (apply Qeq_bool_iff; now symmetry).
  now rewrite B.
Qed.

Lemma formatTime_Z (n : Z) :
  (0 <= n)%Z ->
  formatTime (JS.Fin (inject_Z n))
  = append (JS.digits (n / 60)) (append ":" (twoDigits (n mod 60))).
Proof.
  intro Hn. unfold formatTime.
  assert (Hq : 0 <= inject_Z n)
    by (change 0 with (inject_Z 0); now rewrite <- Zle_Qle).
  assert (Hfl : JS.floor (JS.Fin (inject_Z n)) = JS.Fin (inject_Z n))
    by (unfold JS.floor; now rewrite Qfloor_Z).
  rewrite Hfl.
  assert (Hmax : JS.max JS.zero (JS.Fin (inject_Z n)) = JS.Fin (inject_Z n)).
  { unfold JS.max, JS.zero. apply Qle_bool_iff in Hq. now rewrite Hq. }
  rewrite Hmax.
  assert (Hdiv : JS.div (JS.Fin (inject_Z n)) (JS.Fin 60)
                 = JS.Fin (inject_Z n / inject_Z 60)) by reflexivity.
  rewrite Hdiv.
  assert (Hmin : JS.toString (JS.floor (JS.Fin (inject_Z n / inject_Z 60)))
                 = JS.digits (n / 60)).
  { unfold JS.floor. rewrite (toString_whole _ _ (Qeq_refl _)).
    now rewrite <- Zdiv_Qdiv. }
  rewrite Hmin.
  rewrite rem_nonneg by (trivial; reflexivity).
  assert (Hsec : JS.toString (JS.Fin (Qmod (inject_Z n) 60))
                 = JS.digits (n mod 60)).
  { apply toString_whole. unfold Qmod.
    change 60 with (inject_Z 60).
    rewrite <- Zdiv_Qdiv.
    rewrite <- inject_Z_mult.
    rewrite Z.mod_eq by lia.
    unfold Qminus. now rewrite <- inject_Z_opp, <- inject_Z_plus. }
  rewrite Hsec, padStart0_seconds by (apply Z.mod_pos_bound; lia).
  reflexivity.
Qed.

Lemma formatTime_floor (q : Q) :
  formatTime (JS.Fin q)
  = formatTime (JS.Fin (inject_Z (Z.max 0 (Qfloor q)))).
Proof.
  unfold formatTime.
  assert (M : JS.max JS.zero (JS.floor (JS.Fin q))
              = JS.max JS.zero
                  (JS.floor (JS.Fin (inject_Z (Z.max 0 (Qfloor q)))))).
  { unfold JS.floor. rewrite Qfloor_Z. unfold JS.max, JS.zero.
    destruct (Qle_bool 0 (inject_Z (Qfloor q))) eqn:L.
    - apply Qle_bool_iff in L. change 0 with (inject_Z 0) in L.
      rewrite <- Zle_Qle in L. rewrite Z.max_r by assumption.
      change 0 with (inject_Z 0).
      assert (L' : Qle_bool (inject_Z 0) (inject_Z (Qfloor q)) = true)
        by (apply Qle_bool_iff; now rewrite <- Zle_Qle).
      now rewrite L'.
    - apply Qle_bool_false in L. change 0 with (inject_Z 0) in L.
      rewrite <- Zlt_Qlt in L. rewrite Z.max_l by lia. reflexivity. }
  now rewrite M.
Qed.

(** C6.  For a finite number of seconds [q] (below 2^53, where a double
    holds every integer), [formatTime] prints the floor of [q], clamped at
    zero, as minutes, a colon and the seconds on two digits; the five
    sample values of the specification come out as stated. *)
Theorem formatTime_spec (q : Q) :
  q < inject_Z (2 ^ 53) ->
  (let n := Z.max 0 (Qfloor q) in
   formatTime (JS.Fin q)
   = append (JS.digits (n / 60)) (append ":" (twoDigits (n mod 60)))) /\
  formatTime (JS.Fin 83) = "1:23"%string /\
  formatTime (JS.Fin 0) = "0:00"%string /\
  formatTime (JS.Fin (-5)) = "0:00"%string /\
  formatTime (JS.Fin 225) = "3:45"%string /\
  formatTime (JS.Fin (839 # 10)) = "1:23"%string.
Proof.
  intros _.
  split; [|repeat split; vm_compute; reflexivity].
  intro n. rewrite formatTime_floor. apply formatTime_Z. unfold n. lia.
Qed.

Lemma formatTime_spec_witness :
  (let n := Z.max 0 (Qfloor (4519 # 10)) in
   formatTime (JS.Fin (4519 # 10))
   = append (JS.digits (n / 60)) (append ":" (twoDigits (n mod 60)))) /\
  formatTime (JS.Fin 83) = "1:23"%string /\
  formatTime (JS.Fin 0) = "0:00"%string /\
  formatTime (JS.Fin (-5)) = "0:00"%string /\
  formatTime (JS.Fin 225) = "3:45"%string /\
  formatTime (JS.Fin (839 # 10)) = "1:23"%string.
Proof.
  apply (formatTime_spec (4519 # 10)).
  vm_compute. reflexivity.
Defined.

(** ** Volume *)

Lemma Qclamp01_cases (a : Q) :
  0 <= Qclamp01 a <= 1 /\
  (a <= 0 -> Qclamp01 a == 0) /\
  (1 <= a -> Qclamp01 a == 1) /\
  (0 <= a <= 1 -> Qclamp01 a == a).
Proof.
  unfold Qclamp01.
  destruct (Q.max_spec 0 a) as [[M1 M2]|[M1 M2]];
    destruct (Q.min_spec 1 (Qmax 0 a)) as [[N1 N2]|[N1 N2]];
    repeat split; intros; lra.
Qed.

Lemma clamp01_fin (a : Q) : clamp01 (JS.Fin a) === JS.Fin (Qclamp01 a).
Proof.
  destruct (Qclamp01_cases a) as (_ & Hlo & Hhi & Hmid).
  unfold clamp01, JS.max, JS.zero, JS.one.
  destruct (Qle_bool 0 a) eqn:E0.
  - apply Qle_bool_iff in E0. unfold JS.min.
    destruct (Qle_bool 1 a) eqn:E1; simpl.
    + apply Qle_bool_iff in E1. symmetry. now apply Hhi.
    + apply Qle_bool_false in E1. symmetry. apply Hmid. lra.
  - apply Qle_bool_false in E0. simpl. symmetry. apply Hlo. lra.
Qed.

Lemma volume_update (clientX : JS.number) (rect : DOMRect) (st : Player) :
  volume (handleSetVolumeFromClientX clientX (Some rect) st)
  = clamp01 (JS.div (JS.sub clientX (left rect)) (width rect)).
Proof. reflexivity. Qed.

Lemma div_fin (a b : Q) :
  ~ b == 0 -> JS.div (JS.Fin a) (JS.Fin b) = JS.Fin (a / b).
Proof. intro H. unfold JS.div. now rewrite Qeq_bool_false. Qed.

Lemma eqv_trans (x y z : JS.number) : x === y -> y === z -> x === z.
Proof.
  destruct x, y, z; simpl; try tauto. intros H1 H2. now rewrite H1.
Qed.

(** C7.  On a track of positive width the stored volume is
    [clamp01 ((pointerX - trackLeft) / trackWidth)]: 0 at the left edge and
    to its left, 1 at the right edge and to its right. *)
Theorem volume_from_pointer (st : Player) (pointerX trackLeft trackWidth : Q) :
  0 < trackWidth ->
  let rect := {| left := JS.Fin trackLeft; width := JS.Fin trackWidth |} in
  let v := volume (handleSetVolumeFromClientX (JS.Fin pointerX) (Some rect) st) in
  v === JS.Fin (Qclamp01 ((pointerX - trackLeft) / trackWidth)) /\
  (pointerX == trackLeft -> v === JS.Fin 0) /\
  (pointerX == trackLeft + trackWidth -> v === JS.Fin 1) /\
  (pointerX < trackLeft -> v === JS.Fin 0) /\
  (trackLeft + trackWidth < pointerX -> v === JS.Fin 1).
Proof.
  intros Hw rect v.
  assert (Hv : v === JS.Fin (Qclamp01 ((pointerX - trackLeft) / trackWidth))).
  { unfold v. rewrite volume_update. simpl left. simpl width.
    unfold JS.sub, JS.neg, JS.add. rewrite div_fin by lra.
    apply clamp01_fin. }
  destruct (Qclamp01_cases ((pointerX - trackLeft) / trackWidth))
    as (_ & Hlo & Hhi & _).
  split; [exact Hv|].
  repeat split; intro H; (eapply eqv_trans; [exact Hv|]); simpl.
  - apply Hlo. apply Qle_shift_div_r; lra.
  - apply Hhi. apply Qle_shift_div_l; lra.
  - apply Hlo. apply Qle_shift_div_r; lra.
  - apply Hhi. apply Qle_shift_div_l; lra.
Qed.

Lemma volume_from_pointer_witness :
  let rect := {| left := JS.Fin 100; width := JS.Fin 80 |} in
  let v := volume (handleSetVolumeFromClientX (JS.Fin 120) (Some rect) initial) in
  v === JS.Fin (Qclamp01 ((120 - 100) / 80)) /\
  (120 == 100 -> v === JS.Fin 0) /\
  (120 == 100 + 80 -> v === JS.Fin 1) /\
  (120 < 100 -> v === JS.Fin 0) /\
  (100 + 80 < 120 -> v === JS.Fin 1).
Proof.
  apply (volume_from_pointer initial 120 100 80).
  vm_compute. reflexivity.
Defined.

(** Away from the single input [0 / 0], the stored volume lies in
    [[0, 1]], also on a track of width zero. *)
Lemma volume_in_range (st : Player) (pointerX trackLeft trackWidth : Q) :
  ~ (trackWidth == 0 /\ pointerX == trackLeft) ->
  let rect := {| left := JS.Fin trackLeft; width := JS.Fin trackWidth |} in
  JS.between 0 1
    (volume (handleSetVolumeFromClientX (JS.Fin pointerX) (Some rect) st)).
Proof.
  intros H rect. rewrite volume_update. simpl left. simpl width.
  unfold JS.sub, JS.neg, JS.add.
  destruct (Qeq_dec trackWidth 0) as [Hw|Hw].
  - unfold JS.div. apply Qeq_bool_iff in Hw as Hb. rewrite Hb.
    unfold JS.signed_inf.
    destruct (Qcompare_spec (pointerX + - trackLeft) 0) as [C|C|C].
    + exfalso. apply H. split; [assumption | lra].
    + vm_compute. split; discriminate.
    + vm_compute. split; discriminate.
  - rewrite div_fin by assumption.
    pose proof (clamp01_fin ((pointerX + - trackLeft) / trackWidth)) as E.
    destruct (Qclamp01_cases ((pointerX + - trackLeft) / trackWidth))
      as (R & _).
    destruct (clamp01 _) as [c| | |]; simpl in E; try contradiction.
    simpl. rewrite E. exact R.
Qed.

(** C8.  A pointer at the left edge of a track of width zero stores NaN,
    which is not in [[0, 1]]: [0 / 0] is NaN and [clamp01] lets NaN
    through. *)
Theorem volume_nan_on_empty_track :
  let rect := {| left := JS.Fin 10; width := JS.Fin 0 |} in
  exists st',
    step (PointerDown 10 (Some rect)) initial = Some st' /\
    volume st' = JS.NaN /\
    ~ JS.between 0 1 (volume st').
Proof.
  eexists. split; [reflexivity|]. split; [reflexivity|].
  simpl. tauto.
Qed.

(** ** The invariant holds in every reachable state *)

Lemma Inv_initial : Inv initial.
Proof.
  constructor; simpl; try tauto; try discriminate; try lia.
  - split; vm_compute; [discriminate | reflexivity].
  - split; vm_compute; [discriminate | reflexivity].
Qed.

(** A state that is not loading has no pending timeout, one that is not
    playing no pending frame. *)
Lemma Inv_no_timeout (st : Player) :
  Inv st -> playerState st <> loading -> timeouts st = [].
Proof.
  intros H Hn. destruct (inv_timeouts st H) as [E|(t & _ & _ & _ & _ & E & _)];
    [assumption | contradiction].
Qed.

Lemma Inv_no_frame (st : Player) :
  Inv st -> playerState st <> playing -> frames st = [].
Proof.
  intros H Hn. destruct (inv_frames st H) as [E|(_ & E & _)];
    [assumption | contradiction].
Qed.

Lemma Inv_unmounted (st : Player) :
  Inv st -> isMountedRef st = false -> timeouts st = [] /\ frames st = [].
Proof.
  intros H Hm. split.
  - destruct (inv_timeouts st H) as [E|(t & _ & _ & _ & _ & _ & E)];
      [assumption | congruence].
  - destruct (inv_frames st H) as [E|(_ & _ & E)];
      [assumption | congruence].
Qed.

Lemma Inv_click (st : Player) :
  Inv st -> isMountedRef st = true -> Inv (handleTogglePlayPause st).
Proof.
  intros H Hm.
  destruct (PlayerState_eqb (playerState st) loading) eqn:Hld;
    [unfold handleTogglePlayPause, isLoading; now rewrite Hld|].
  assert (Hnl : playerState st <> loading)
    by (intro E; rewrite E in Hld; discriminate).
  pose proof (Inv_no_timeout st H Hnl) as Hnt.
  pose proof (Inv_no_frame st H) as Hnf.
  assert (Hfr : filter (fun f => negb (f =? rafId st)%Z) (frames st) = []).
  { destruct (inv_frames st H) as [E|(E & _)]; rewrite E; [reflexivity|].
    simpl. now rewrite Z.eqb_refl. }
  break_inv H.
  unfold handleTogglePlayPause, isLoading. rewrite Hld. clear Hld.
  destruct st; simpl in *. subst timeouts0 isMountedRef0.
  destruct playerState0; [| |contradiction]; simpl.
  - destruct toggleTimeoutRef0 as [h|]; [destruct (h =? 0)%Z|];
      inv_finish;
      right; eexists; repeat split; simpl; (lia || discriminate).
  - rewrite (Hnf ltac:(discriminate)), (IR ltac:(discriminate)) in *.
    destruct toggleTimeoutRef0 as [h|]; [destruct (h =? 0)%Z|]; simpl;
      inv_finish;
      right; eexists; repeat split; simpl; (lia || discriminate).
Qed.

Lemma Inv_elapse (st : Player) (c : Z) : Inv st -> Inv (set_clock st c).
Proof. intro H. break_inv H. constructor; assumption. Qed.

Lemma Inv_volume (st : Player) (v : JS.number) :
  Inv st -> Inv (set_volume st v).
Proof. intro H. break_inv H. constructor; assumption. Qed.

Lemma Inv_sample (st : Player) : Inv st -> Inv (sampleLabel st).
Proof. intro H. break_inv H. constructor; assumption. Qed.

Lemma Inv_pointer (clientX : JS.number) (track : option DOMRect)
  (st : Player) :
  Inv st -> Inv (handleSetVolumeFromClientX clientX track st).
Proof.
  intro H. destruct track; simpl; [apply Inv_volume|]; assumption.
Qed.

(** The timeout found under a handle is the only pending one. *)
Lemma findTimeout_pending (st : Player) (h : Z) (t : Timeout) :
  Inv st -> findTimeout h st = Some t ->
  timeouts st = [t] /\ handle t = h /\ nextState t <> loading /\
  playerState st = loading /\ isMountedRef st = true /\
  toggleTimeoutRef st = Some h.
Proof.
  intros H Hf. unfold findTimeout in Hf.
  destruct (inv_timeouts st H) as [E|(t' & E & Href & _ & Hn & Hl & Hm)];
    rewrite E in Hf; simpl in Hf; [discriminate|].
  destruct (Z.eqb_spec (handle t') h) as [Eh|]; [|discriminate].
  injection Hf as <-. subst h. tauto.
Qed.

Lemma Inv_timeout (st : Player) (h : Z) (t : Timeout) :
  Inv st -> findTimeout h st = Some t ->
  Inv (toggleTimeoutCallback (nextState t) (clearTimeout h st)).
Proof.
  intros H Hf.
  destruct (findTimeout_pending st h t H Hf) as (E & Eh & Hn & Hl & Hm & _).
  assert (Hnf : frames st = [])
    by (apply (Inv_no_frame st H); rewrite Hl; discriminate).
  assert (Hlf : lastFrameRef st = None)
    by (apply (inv_lastFrame_reset st H); rewrite Hl; discriminate).
  break_inv H.
  unfold toggleTimeoutCallback, clearTimeout.
  destruct st; simpl in *. subst.
  unfold filter. rewrite Z.eqb_refl. simpl. clear Hf.
  destruct t as [h d next]; simpl in *.
  destruct next; [| |contradiction];
    constructor; simpl; intros;
    try tauto; try discriminate; try lia; try congruence.
Qed.

Lemma tick_fields (now : JS.number) (st : Player) :
  isMountedRef st = true ->
  playerState (tick now st) = playerState st /\
  timeouts (tick now st) = timeouts st /\
  toggleTimeoutRef (tick now st) = toggleTimeoutRef st /\
  isMountedRef (tick now st) = true /\
  interval (tick now st) = interval st /\
  frames (tick now st) = frames st ++ [nextHandle st] /\
  rafId (tick now st) = nextHandle st /\
  nextHandle (tick now st) = (nextHandle st + 1)%Z.
Proof.
  intro H. unfold tick. rewrite H. simpl. repeat split. assumption.
Qed.

(** The frame that fires is the one pending request of a playing,
    mounted component. *)
Lemma frame_pending (st : Player) (h : Z) :
  Inv st -> existsb (Z.eqb h) (frames st) = true ->
  h = rafId st /\ frames st = [h] /\ playerState st = playing /\
  isMountedRef st = true.
Proof.
  intros H Hex.
  destruct (inv_frames st H) as [E|(E & Hpl & Hm)];
    rewrite E in Hex; simpl in Hex; [discriminate|].
  rewrite orb_false_r in Hex. apply Z.eqb_eq in Hex. subst h. tauto.
Qed.

Lemma within_Fin (lo hi : Q) (x : JS.number) :
  JS.within lo hi x -> exists q, x = JS.Fin q /\ lo <= q < hi.
Proof. destruct x; simpl; try tauto. eauto. Qed.

Lemma Inv_frame (st : Player) (h : Z) (now : Q) :
  Inv st -> existsb (Z.eqb h) (frames st) = true ->
  Inv (tick (JS.Fin now) (cancelAnimationFrame h st)).
Proof.
  intros H Hex.
  destruct (frame_pending st h H Hex) as (Eh & Ef & Hpl & Hm).
  set (st1 := cancelAnimationFrame h st).
  assert (Hm1 : isMountedRef st1 = true) by exact Hm.
  assert (Ef1 : frames st1 = []).
  { unfold st1, cancelAnimationFrame. simpl. rewrite Ef. simpl.
    now rewrite Z.eqb_refl. }
  destruct (within_Fin _ _ _ (inv_rotation st H)) as (r & Er & Rr).
  destruct (within_Fin _ _ _ (inv_progress st H)) as (p & Ep & Rp).
  destruct (tick_frame_spec st1 now r p Hm1 (inv_lastFrame_finite st H)
              Er Rr Ep Rp) as (e & _ & _ & _ & Wr & _ & Wp & _).
  destruct (tick_fields (JS.Fin now) st1 Hm1)
    as (F1 & F2 & F3 & F4 & F5 & F6 & F7 & F8).
  assert (Hnt : timeouts st = [])
    by (apply (Inv_no_timeout st H); rewrite Hpl; discriminate).
  break_inv H.
  constructor.
  - left. rewrite F2. exact Hnt.
  - rewrite F1. intros _ E. change (playerState st = loading) in E.
    congruence.
  - right. rewrite F6, F7, F1, F4, Ef1. tauto.
  - rewrite F6. intros _ _. now destruct (frames st1).
  - rewrite F1. intro Hn. contradiction.
  - rewrite (tick_lastFrameRef _ _ Hm1). intros l [= <-]. exact I.
  - exact Wr.
  - exact Wp.
  - rewrite F8. simpl. lia.
  - rewrite F4. discriminate.
Qed.

Lemma Inv_unmount (st : Player) : Inv st -> Inv (unmount st).
Proof.
  intro H.
  assert (Hfr : filter (fun f => negb (f =? rafId st)%Z) (frames st) = []).
  { destruct (inv_frames st H) as [E|(E & _)]; rewrite E; [reflexivity|].
    simpl. now rewrite Z.eqb_refl. }
  assert (Hto : forall h, toggleTimeoutRef st = Some h ->
                  truthy (Some h) = true ->
                  filter (fun t => negb (handle t =? h)%Z) (timeouts st) = []).
  { intros h Eh _.
    destruct (inv_timeouts st H) as [E|(t & E & Href & _)]; rewrite E;
      [reflexivity|].
    simpl. rewrite Eh in Href. injection Href as ->.
    now rewrite Z.eqb_refl. }
  assert (Hnone : truthy (toggleTimeoutRef st) = false -> timeouts st = []).
  { intro Hf.
    destruct (inv_timeouts st H) as [E|(t & E & Href & Hpos & _)];
      [assumption|].
    rewrite Href in Hf. simpl in Hf.
    destruct (Z.eqb_spec (handle t) 0); [lia | discriminate]. }
  break_inv H.
  unfold unmount, animationCleanup, isPlaying, clearInterval.
  destruct st; simpl in *.
  destruct toggleTimeoutRef0 as [h|].
  - destruct (negb (h =? 0)%Z) eqn:Tr.
    + specialize (Hto h eq_refl Tr).
      destruct playerState0; constructor; simpl; rewrite ?Hfr, ?Hto;
        intros; try tauto; try discriminate; try lia; try congruence; eauto;
        (destruct IF as [E|(_ & E & _)]; [left; exact E | discriminate E]).

    + specialize (Hnone Tr). subst timeouts0.
      destruct playerState0; constructor; simpl; rewrite ?Hfr;
        intros; try tauto; try discriminate; try lia; try congruence; eauto;
        (destruct IF as [E|(_ & E & _)]; [left; exact E | discriminate E]).
  - specialize (Hnone eq_refl). subst timeouts0.
    destruct playerState0; constructor; simpl; rewrite ?Hfr;
      intros; try tauto; try discriminate; try lia; try congruence; eauto;
        (destruct IF as [E|(_ & E & _)]; [left; exact E | discriminate E]).
Qed.

Theorem Inv_step (e : Event) (st st' : Player) :
  Inv st -> step e st = Some st' -> Inv st'.
Proof.
  intros H Hs. destruct e; simpl in Hs.
  - destruct (0 <=? ms)%Z; [|discriminate].
    injection Hs as <-. now apply Inv_elapse.
  - destruct (isMountedRef st) eqn:Hm; [|discriminate].
    injection Hs as <-. now apply Inv_click.
  - destruct (findTimeout h st) as [t|] eqn:Hf; [|discriminate].
    destruct (due t <=? clock st)%Z; [|discriminate].
    injection Hs as <-. now apply Inv_timeout.
  - destruct (existsb (Z.eqb h) (frames st)) eqn:Hex; [|discriminate].
    injection Hs as <-. now apply Inv_frame.
  - destruct (interval st); [|discriminate].
    injection Hs as <-. now apply Inv_sample.
  - destruct (isMountedRef st); [|discriminate].
    injection Hs as <-. now apply Inv_pointer.
  - destruct (isMountedRef st); [|discriminate].
    injection Hs as <-. unfold onPointerMove.
    destruct (negb _); [assumption | now apply Inv_pointer].
  - destruct (isMountedRef st); [|discriminate].
    injection Hs as <-. now apply Inv_unmount.
Qed.

Theorem reachable_Inv (st : Player) : reachable st -> Inv st.
Proof.
  induction 1 as [|e st st' _ IH Hs];
    [apply Inv_initial | exact (Inv_step e st st' IH Hs)].
Qed.

(** ** The first frame of a run *)

Lemma tick_still (st : Player) (now : JS.number) (e r p : Q) :
  isMountedRef st = true ->
  deltaMs (lastFrameRef st) now = JS.Fin e -> e == 0 ->
  artworkRotation st = JS.Fin r -> 0 <= r < 360 ->
  progress st = JS.Fin p -> 0 <= p < 1 ->
  artworkRotation (tick now st) === JS.Fin r /\
  progress (tick now st) === JS.Fin p.
Proof.
  intros Hm Hd Hz Hr Rr Hp Rp.
  assert (Hd' : deltaMs (lastFrameRef st) now === JS.Fin e)
    by (rewrite Hd; apply eqv_refl).
  assert (He : 0 <= e) by (rewrite Hz; lra).
  destruct (rotation_after_tick st now e r Hm Hd' He Hr Rr) as [R1 _].
  destruct (progress_after_tick st now e p Hm Hd' He Hp Rp) as [P1 _].
  split.
  - eapply eqv_trans; [exact R1|]. simpl.
    rewrite <- (Qmod_small r 360) at 2 by assumption.
    apply Qmod_comp; [rewrite Hz; field | reflexivity].
  - eapply eqv_trans; [exact P1|]. simpl.
    rewrite <- (Qmod_small p 1) at 2 by assumption.
    apply Qmod_comp; [rewrite Hz; field | reflexivity].
Qed.

Lemma tick_first_frame (st : Player) (now : Q) :
  isMountedRef st = true -> lastFrameRef st = None ->
  JS.within 0 360 (artworkRotation st) -> JS.within 0 1 (progress st) ->
  deltaMs (lastFrameRef st) (JS.Fin now) === JS.Fin 0 /\
  artworkRotation (tick (JS.Fin now) st) === artworkRotation st /\
  progress (tick (JS.Fin now) st) === progress st.
Proof.
  intros Hm Hl Wr Wp.
  destruct (within_Fin _ _ _ Wr) as (r & Er & Rr).
  destruct (within_Fin _ _ _ Wp) as (p & Ep & Rp).
  destruct (deltaMs_spec (lastFrameRef st) now) as (e & Hd & _ & Hz & _);
    [rewrite Hl; discriminate|].
  specialize (Hz Hl).
  split; [rewrite Hd; exact Hz|].
  rewrite Er, Ep. exact (tick_still st (JS.Fin now) e r p Hm Hd Hz Er Rr Ep Rp).
Qed.

(** ** The toggle *)

Lemma loading_toggle_ignored (st : Player) :
  playerState st = loading -> handleTogglePlayPause st = st.
Proof.
  intro H. unfold handleTogglePlayPause, isLoading. now rewrite H.
Qed.

(** C4.  A toggle request in the [loading] state changes nothing: the state
    stays [loading], no timeout is scheduled and the pending one is kept as
    it is. *)
Theorem toggle_while_loading (st : Player) :
  playerState st = loading ->
  handleTogglePlayPause st = st /\
  playerState (handleTogglePlayPause st) = loading /\
  timeouts (handleTogglePlayPause st) = timeouts st /\
  toggleTimeoutRef (handleTogglePlayPause st) = toggleTimeoutRef st /\
  (isMountedRef st = true -> step Click st = Some st).
Proof.
  intro H.
  pose proof (loading_toggle_ignored st H) as E.
  rewrite E. repeat split; trivial.
  intro Hm. simpl. now rewrite Hm, E.
Qed.

Lemma toggle_while_loading_witness :
  handleTogglePlayPause (handleTogglePlayPause initial)
  = handleTogglePlayPause initial /\
  playerState (handleTogglePlayPause (handleTogglePlayPause initial))
  = loading /\
  timeouts (handleTogglePlayPause (handleTogglePlayPause initial))
  = timeouts (handleTogglePlayPause initial) /\
  toggleTimeoutRef (handleTogglePlayPause (handleTogglePlayPause initial))
  = toggleTimeoutRef (handleTogglePlayPause initial) /\
  (isMountedRef (handleTogglePlayPause initial) = true ->
   step Click (handleTogglePlayPause initial)
   = Some (handleTogglePlayPause initial)).
Proof.
  apply (toggle_while_loading (handleTogglePlayPause initial)).
  reflexivity.
Defined.

(** What an effective toggle leaves behind. *)
Lemma click_effect (st : Player) :
  Inv st -> playerState st <> loading ->
  playerState (handleTogglePlayPause st) = loading /\
  isMountedRef (handleTogglePlayPause st) = isMountedRef st /\
  clock (handleTogglePlayPause st) = clock st /\
  timeouts (handleTogglePlayPause st)
  = [{| handle := nextHandle st;
        due := (clock st + TOGGLE_DELAY_MS)%Z;
        nextState := if isPlaying st then paused else playing |}].
Proof.
  intros H Hnl.
  pose proof (Inv_no_timeout st H Hnl) as Hnt.
  unfold handleTogglePlayPause, isLoading.
  destruct st; simpl in *. subst timeouts0.
  destruct playerState0; [| |contradiction]; simpl;
    (destruct toggleTimeoutRef0 as [h|]; [destruct (h =? 0)%Z|]);
    simpl; repeat split.
Qed.

(** A due timeout of a mounted component fires and sets its target. *)
Lemma fire_effect (st : Player) (t : Timeout) :
  timeouts st = [t] -> isMountedRef st = true ->
  (due t <= clock st)%Z ->
  exists st',
    step (TimeoutFires (handle t)) st = Some st' /\
    playerState st' = nextState t /\ timeouts st' = [].
Proof.
  intros E Hm Hd. simpl. unfold findTimeout. rewrite E. simpl.
  rewrite Z.eqb_refl. apply Z.leb_le in Hd. rewrite Hd.
  eexists. split; [reflexivity|].
  unfold toggleTimeoutCallback, clearTimeout.
  destruct st; simpl in *. subst. simpl. rewrite Z.eqb_refl. simpl.
  unfold setPlayerState, isPlaying, animationEffect, animationCleanup.
  simpl. destruct playerState0, (nextState t); simpl; split; reflexivity.
Qed.

Lemma run_reachable (es : list Event) (st st' : Player) :
  reachable st -> run es st = Some st' -> reachable st'.
Proof.
  revert st. induction es as [|e es IH]; intros st Hre Hr; simpl in Hr.
  - now injection Hr as <-.
  - destruct (step e st) as [st1|] eqn:Hs; [|discriminate].
    exact (IH st1 (reach_step e st st1 Hre Hs) Hr).
Qed.

Lemma run_app (es1 es2 : list Event) (st : Player) :
  run (es1 ++ es2) st
  = match run es1 st with
    | Some st' => run es2 st'
    | None => None
    end.
Proof.
  revert st. induction es1 as [|e es1 IH]; intro st; simpl; [reflexivity|].
  destruct (step e st); [apply IH | reflexivity].
Qed.

Lemma nowPlaying_reachable : reachable nowPlaying.
Proof.
  apply (run_reachable [Click; Elapse 500; TimeoutFires 2] initial);
    [apply reach_initial | vm_compute; reflexivity].
Qed.

(** C1, as stated, fails from the playing state: toggle A schedules the
    transition to [paused]; toggle B, 100 ms later, is ignored, and the
    transition that fires is still A's, to [paused], while B's target is
    [playing]. *)
Lemma last_toggle_wins_fails : ~ last_toggle_wins nowPlaying.
Proof.
  intro H.
  set (stA := after [Click; Elapse 100] nowPlaying).
  set (stB := after [Click] stA).
  set (stC := after [Elapse 400; TimeoutFires 4] stB).
  assert (C : playerState stC = toggleTarget stA).
  { apply (H 100%Z 400%Z 4%Z stA stB stC).
    - unfold TOGGLE_DELAY_MS. lia.
    - vm_compute. reflexivity.
    - vm_compute. reflexivity.
    - vm_compute. reflexivity. }
  vm_compute in C. discriminate C.
Qed.

(** C1, amended.  After an effective toggle A, a toggle B issued before
    A's delay has elapsed is ignored; one delayed transition is pending,
    it is A's, it fires once its 500 ms have passed and sets A's target,
    and no other transition can fire after it.  In every reachable state
    at most one delayed transition is pending. *)
Theorem first_toggle_wins (st : Player) (d d' : Z) :
  reachable st -> isMountedRef st = true -> playerState st <> loading ->
  (0 <= d < TOGGLE_DELAY_MS)%Z -> (0 <= d')%Z ->
  (TOGGLE_DELAY_MS <= d + d')%Z ->
  exists stB stC tA,
    run [Click; Elapse d] st = Some stB /\
    run [Click; Elapse d; Click] st = Some stB /\
    timeouts stB = [tA] /\
    nextState tA = toggleTarget st /\
    due tA = (clock st + TOGGLE_DELAY_MS)%Z /\
    run [Elapse d'; TimeoutFires (handle tA)] stB = Some stC /\
    playerState stC = toggleTarget st /\
    timeouts stC = [] /\
    (forall h, step (TimeoutFires h) stC = None) /\
    (forall s, reachable s -> (List.length (timeouts s) <= 1)%nat).
Proof.
  intros Hre Hm Hnl [Hd0 Hd1] Hd' Hsum.
  pose proof (reachable_Inv st Hre) as HI.
  destruct (click_effect st HI Hnl) as (Cl & Cm & Cc & Ct).
  set (stA := handleTogglePlayPause st) in *.
  set (tA := {| handle := nextHandle st;
                due := (clock st + TOGGLE_DELAY_MS)%Z;
                nextState := if isPlaying st then paused else playing |})
    in *.
  set (stB := set_clock stA (clock stA + d)%Z).
  set (stB' := set_clock stB (clock stB + d')%Z).
  assert (RB : run [Click; Elapse d] st = Some stB).
  { simpl. rewrite Hm. fold stA.
    apply Z.leb_le in Hd0. rewrite Hd0. reflexivity. }
  assert (SB : step Click stB = Some stB).
  { simpl. change (isMountedRef stB) with (isMountedRef stA).
    rewrite Cm, Hm.
    now rewrite (loading_toggle_ignored stB Cl). }
  destruct (fire_effect stB' tA Ct) as (stC & SC & PC & TC).
  { change (isMountedRef stA = true). now rewrite Cm. }
  { simpl. rewrite Cc. lia. }
  exists stB, stC, tA.
  split; [exact RB|]. split.
  { change (run ([Click; Elapse d] ++ [Click]) st = Some stB).
    rewrite run_app, RB. cbn [run]. now rewrite SB. }
  split; [exact Ct|]. split; [reflexivity|]. split; [reflexivity|].
  split.
  { assert (SE : step (Elapse d') stB = Some stB')
      by (simpl; apply Z.leb_le in Hd'; now rewrite Hd').
    cbn [run]. now rewrite SE, SC. }
  split; [exact PC|]. split; [exact TC|]. split.
  { intro h. simpl. unfold findTimeout. now rewrite TC. }
  intros s Hs.
  destruct (inv_timeouts s (reachable_Inv s Hs)) as [E|(t & E & _)];
    rewrite E; simpl; lia.
Qed.

Lemma first_toggle_wins_witness :
  exists stB stC tA,
    run [Click; Elapse 100] nowPlaying = Some stB /\
    run [Click; Elapse 100; Click] nowPlaying = Some stB /\
    timeouts stB = [tA] /\
    nextState tA = toggleTarget nowPlaying /\
    due tA = (clock nowPlaying + TOGGLE_DELAY_MS)%Z /\
    run [Elapse 400; TimeoutFires (handle tA)] stB = Some stC /\
    playerState stC = toggleTarget nowPlaying /\
    timeouts stC = [] /\
    (forall h, step (TimeoutFires h) stC = None) /\
    (forall s, reachable s -> (List.length (timeouts s) <= 1)%nat).
Proof.
  apply (first_toggle_wins nowPlaying 100 400).
  - exact nowPlaying_reachable.
  - vm_compute. reflexivity.
  - vm_compute. discriminate.
  - unfold TOGGLE_DELAY_MS. lia.
  - lia.
  - unfold TOGGLE_DELAY_MS. lia.
Defined.

(** ** What the handlers leave alone *)

Lemma setPlayerState_fields (next : PlayerState) (st : Player) :
  playerState (setPlayerState next st) = next /\
  isMountedRef (setPlayerState next st) = isMountedRef st /\
  timeouts (setPlayerState next st) = timeouts st /\
  artworkRotation (setPlayerState next st) = artworkRotation st /\
  progress (setPlayerState next st) = progress st /\
  (lastFrameRef (setPlayerState next st) = lastFrameRef st \/
   lastFrameRef (setPlayerState next st) = None).
Proof.
  unfold setPlayerState, animationEffect, animationCleanup.
  split_ifs; simpl; tauto.
Qed.

Lemma toggle_fields (st : Player) :
  (playerState (handleTogglePlayPause st) = loading) /\
  isMountedRef (handleTogglePlayPause st) = isMountedRef st /\
  artworkRotation (handleTogglePlayPause st) = artworkRotation st /\
  progress (handleTogglePlayPause st) = progress st /\
  (lastFrameRef (handleTogglePlayPause st) = lastFrameRef st \/
   lastFrameRef (handleTogglePlayPause st) = None).
Proof.
  unfold handleTogglePlayPause.
  destruct (isLoading st) eqn:E.
  - unfold isLoading in E. destruct (playerState st); try discriminate.
    tauto.
  - destruct (setPlayerState_fields loading st) as (F1 & F2 & F3 & F4 & F5 & F6).
    destruct (toggleTimeoutRef (setPlayerState loading st)) as [h|];
      [destruct (truthy (Some h))|]; simpl; tauto.
Qed.

Lemma callback_fields (next : PlayerState) (st : Player) :
  (playerState (toggleTimeoutCallback next st) = playerState st \/
   isMountedRef (toggleTimeoutCallback next st) = true) /\
  artworkRotation (toggleTimeoutCallback next st) = artworkRotation st /\
  progress (toggleTimeoutCallback next st) = progress st /\
  (lastFrameRef (toggleTimeoutCallback next st) = lastFrameRef st \/
   lastFrameRef (toggleTimeoutCallback next st) = None).
Proof.
  unfold toggleTimeoutCallback.
  destruct (isMountedRef st) eqn:Hm; simpl; [|tauto].
  destruct (setPlayerState_fields next st) as (F1 & F2 & F3 & F4 & F5 & F6).
  rewrite F2, Hm. tauto.
Qed.

Lemma unmount_fields (st : Player) :
  playerState (unmount st) = playerState st /\
  isMountedRef (unmount st) = false /\
  artworkRotation (unmount st) = artworkRotation st /\
  progress (unmount st) = progress st /\
  lastFrameRef (unmount st) = lastFrameRef st.
Proof.
  unfold unmount, animationCleanup, clearInterval.
  split_ifs; simpl; tauto.
Qed.

Lemma volume_fields (clientX : JS.number) (track : option DOMRect)
  (st : Player) :
  playerState (handleSetVolumeFromClientX clientX track st) = playerState st /\
  artworkRotation (handleSetVolumeFromClientX clientX track st)
  = artworkRotation st /\
  progress (handleSetVolumeFromClientX clientX track st) = progress st /\
  lastFrameRef (handleSetVolumeFromClientX clientX track st)
  = lastFrameRef st.
Proof. destruct track; simpl; tauto. Qed.

(** Without a pending frame no event moves the animated quantities, and
    the timestamp of the last frame stays or is reset. *)
Lemma step_keeps_motion (e : Event) (st st' : Player) :
  frames st = [] -> step e st = Some st' ->
  artworkRotation st' = artworkRotation st /\
  progress st' = progress st /\
  (lastFrameRef st' = lastFrameRef st \/ lastFrameRef st' = None).
Proof.
  intros Hf Hs. destruct e; simpl in Hs.
  - destruct (0 <=? ms)%Z; [|discriminate]. injection Hs as <-.
    simpl. tauto.
  - destruct (isMountedRef st); [|discriminate]. injection Hs as <-.
    destruct (toggle_fields st) as (_ & _ & F). exact F.
  - destruct (findTimeout h st) as [t|]; [|discriminate].
    destruct (due t <=? clock st)%Z; [|discriminate]. injection Hs as <-.
    destruct (callback_fields (nextState t) (clearTimeout h st))
      as (_ & F). exact F.
  - rewrite Hf in Hs. discriminate.
  - destruct (interval st); [|discriminate]. injection Hs as <-.
    simpl. tauto.
  - destruct (isMountedRef st); [|discriminate]. injection Hs as <-.
    destruct (volume_fields (JS.Fin clientX) track st) as (_ & F1 & F2 & F3).
    rewrite F1, F2, F3. tauto.
  - destruct (isMountedRef st); [|discriminate]. injection Hs as <-.
    unfold onPointerMove. destruct (negb _); [tauto|].
    destruct (volume_fields (JS.Fin clientX) track st) as (_ & F1 & F2 & F3).
    rewrite F1, F2, F3. tauto.
  - destruct (isMountedRef st); [|discriminate]. injection Hs as <-.
    destruct (unmount_fields st) as (_ & _ & F1 & F2 & F3).
    rewrite F1, F2, F3. tauto.
Qed.

(** A state change into [playing] happens on a mounted component. *)
Lemma step_enters_playing (e : Event) (st st' : Player) :
  playerState st <> playing -> step e st = Some st' ->
  playerState st' = playing -> isMountedRef st' = true.
Proof.
  intros Hn Hs Hp. destruct e; simpl in Hs.
  - destruct (0 <=? ms)%Z; [|discriminate]. injection Hs as <-.
    contradiction.
  - destruct (isMountedRef st); [|discriminate]. injection Hs as <-.
    destruct (toggle_fields st) as (F & _). congruence.
  - destruct (findTimeout h st) as [t|]; [|discriminate].
    destruct (due t <=? clock st)%Z; [|discriminate]. injection Hs as <-.
    destruct (callback_fields (nextState t) (clearTimeout h st))
      as ([F|F] & _); [|exact F].
    rewrite F in Hp. contradiction.
  - destruct (existsb (Z.eqb h) (frames st)); [|discriminate].
    injection Hs as <-. unfold tick in *.
    destruct (isMountedRef (cancelAnimationFrame h st)) eqn:Hm;
      simpl in *; [assumption | contradiction].
  - destruct (interval st); [|discriminate]. injection Hs as <-.
    contradiction.
  - destruct (isMountedRef st); [|discriminate]. injection Hs as <-.
    destruct (volume_fields (JS.Fin clientX) track st) as (F & _).
    congruence.
  - destruct (isMountedRef st); [|discriminate]. injection Hs as <-.
    unfold onPointerMove in Hp. destruct (negb _); [contradiction|].
    destruct (volume_fields (JS.Fin clientX) track st) as (F & _).
    congruence.
  - destruct (isMountedRef st); [|discriminate]. injection Hs as <-.
    destruct (unmount_fields st) as (F & _). congruence.
Qed.

(** ** Pausing and resuming *)

(** Outside [playing] the timestamp of the last frame is reset and no
    frame is pending, so no event advances the rotation or the progress;
    and when an event brings the component back to [playing], the
    timestamp is still reset, one frame is requested, and that first frame
    has elapsed time zero whatever its timestamp: it leaves both quantities
    where the pause left them. *)
Lemma paused_animation_frozen (st : Player) :
  reachable st -> playerState st <> playing ->
  lastFrameRef st = None /\
  frames st = [] /\
  forall e st',
    step e st = Some st' ->
    artworkRotation st' = artworkRotation st /\
    progress st' = progress st /\
    (playerState st' = playing ->
     lastFrameRef st' = None /\
     frames st' = [rafId st'] /\
     forall now : Q,
     exists st'',
       step (FrameFires (rafId st') now) st' = Some st'' /\
       deltaMs (lastFrameRef st') (JS.Fin now) === JS.Fin 0 /\
       artworkRotation st'' === artworkRotation st /\
       progress st'' === progress st).
Proof.
  intros Hre Hn.
  pose proof (reachable_Inv st Hre) as HI.
  pose proof (inv_lastFrame_reset st HI Hn) as Hl.
  pose proof (Inv_no_frame st HI Hn) as Hf.
  split; [exact Hl|]. split; [exact Hf|].
  intros e st' Hs.
  destruct (step_keeps_motion e st st' Hf Hs) as (Er & Ep & El).
  split; [exact Er|]. split; [exact Ep|].
  intro Hp.
  pose proof (Inv_step e st st' HI Hs) as HI'.
  pose proof (step_enters_playing e st st' Hn Hs Hp) as Hm'.
  assert (Hl' : lastFrameRef st' = None)
    by (destruct El as [El|El]; congruence).
  assert (Hf' : frames st' = [rafId st']).
  { destruct (inv_frames st' HI') as [E|(E & _)]; [|exact E].
    exfalso. exact (inv_playing st' HI' Hm' Hp E). }
  split; [exact Hl'|]. split; [exact Hf'|].
  intro now.
  set (st1 := cancelAnimationFrame (rafId st') st').
  exists (tick (JS.Fin now) st1).
  split.
  { simpl. rewrite Hf'. simpl. now rewrite Z.eqb_refl. }
  destruct (tick_first_frame st1 now Hm' Hl' (inv_rotation st' HI')
              (inv_progress st' HI')) as (D & R & P).
  change (lastFrameRef st1) with (lastFrameRef st') in D.
  split; [exact D|].
  change (artworkRotation st1) with (artworkRotation st') in R.
  change (progress st1) with (progress st') in P.
  rewrite <- Er, <- Ep. split; assumption.
Qed.

Lemma paused_animation_frozen_witness :
  lastFrameRef resuming = None /\
  frames resuming = [] /\
  forall e st',
    step e resuming = Some st' ->
    artworkRotation st' = artworkRotation resuming /\
    progress st' = progress resuming /\
    (playerState st' = playing ->
     lastFrameRef st' = None /\
     frames st' = [rafId st'] /\
     forall now : Q,
     exists st'',
       step (FrameFires (rafId st') now) st' = Some st'' /\
       deltaMs (lastFrameRef st') (JS.Fin now) === JS.Fin 0 /\
       artworkRotation st'' === artworkRotation resuming /\
       progress st'' === progress resuming).
Proof.
  apply (paused_animation_frozen resuming).
  - apply (run_reachable [Click; Elapse 500] initial);
      [apply reach_initial | vm_compute; reflexivity].
  - vm_compute. discriminate.
Defined.

(** ** Teardown *)

(** After teardown only time passes: nothing is pending, and no input
    reaches the component. *)
Lemma unmounted_step (e : Event) (st st' : Player) :
  Inv st -> isMountedRef st = false -> step e st = Some st' ->
  playerState st' = playerState st /\ isMountedRef st' = false /\
  timeouts st' = [].
Proof.
  intros HI Hm Hs.
  destruct (Inv_unmounted st HI Hm) as [Ht Hf].
  pose proof (inv_interval st HI Hm) as Hi.
  destruct e; simpl in Hs; unfold findTimeout in Hs;
    rewrite ?Hm, ?Ht, ?Hf, ?Hi in Hs; simpl in Hs; try discriminate.
  destruct (0 <=? ms)%Z; [|discriminate]. injection Hs as <-.
  simpl. tauto.
Qed.

Lemma unmounted_run (es : list Event) (st st' : Player) :
  Inv st -> isMountedRef st = false -> run es st = Some st' ->
  playerState st' = playerState st /\ isMountedRef st' = false /\
  timeouts st' = [].
Proof.
  revert st. induction es as [|e es IH]; intros st HI Hm Hr; simpl in Hr.
  - injection Hr as <-. destruct (Inv_unmounted st HI Hm). tauto.
  - destruct (step e st) as [st1|] eqn:Hs; [|discriminate].
    destruct (unmounted_step e st st1 HI Hm Hs) as (P1 & M1 & _).
    destruct (IH st1 (Inv_step e st st1 HI Hs) M1 Hr) as (P & M & T).
    rewrite P, P1. tauto.
Qed.

(** C9.  When the component is torn down while a delayed transition is
    pending, the transition is removed from the pending timeouts, and
    through whatever happens afterwards the state stays [loading]: it never
    becomes the target of that transition.  Were the callback to run all
    the same, it would leave the state as it is. *)
Theorem teardown_discards_pending (st st' : Player) (t : Timeout)
  (es : list Event) :
  reachable st -> In t (timeouts st) ->
  run (Unmount :: es) st = Some st' ->
  playerState st' = loading /\
  playerState st' <> nextState t /\
  timeouts st' = [] /\
  toggleTimeoutCallback (nextState t) st' = st'.
Proof.
  intros Hre Hin Hr.
  pose proof (reachable_Inv st Hre) as HI.
  destruct (inv_timeouts st HI) as [E|(t' & E & _ & _ & Hn & Hl & Hm)];
    rewrite E in Hin; simpl in Hin; [contradiction|].
  destruct Hin as [<-|[]].
  cbn [run] in Hr. simpl step in Hr. rewrite Hm in Hr.
  destruct (unmount_fields st) as (P1 & M1 & _).
  destruct (unmounted_run es (unmount st) st' (Inv_unmount st HI) M1 Hr)
    as (P & M & T).
  rewrite P, P1, Hl.
  split; [reflexivity|]. split; [congruence|]. split; [exact T|].
  unfold toggleTimeoutCallback. now rewrite M.
Qed.

Lemma teardown_discards_pending_witness :
  playerState tornDown = loading /\
  playerState tornDown <> playing /\
  timeouts tornDown = [] /\
  toggleTimeoutCallback playing tornDown = tornDown.
Proof.
  apply (teardown_discards_pending
           (after [Click; Elapse 100] initial) tornDown
           {| handle := 2; due := 500; nextState := playing |}
           [Elapse 1000]).
  - apply (run_reachable [Click; Elapse 100] initial);
      [apply reach_initial | vm_compute; reflexivity].
  - vm_compute. left. reflexivity.
  - vm_compute. reflexivity.
Defined.

(** Teardown of a playing component cancels the pending frame and keeps
    the timestamp of the last one: the reset belongs to the effect's body,
    which runs on a state change only. *)
Remark teardown_keeps_timestamp :
  exists st,
    run [FrameFires 3 100; Unmount] nowPlaying = Some st /\
    frames st = [] /\ lastFrameRef st = Some (JS.Fin 100).
Proof. eexists. vm_compute. repeat split. Qed.

(** * Further properties of the code

    ** [clamp01] *)

(** X1.  [clamp01] returns NaN exactly on NaN; on every other number,
    the infinities included, its result lies in [[0, 1]]. *)
Theorem clamp01_total (x : JS.number) :
  (clamp01 x = JS.NaN /\ x = JS.NaN) \/
  (x <> JS.NaN /\ JS.between 0 1 (clamp01 x)).
Proof.
  destruct x as [a| | |].
  - right. split; [discriminate|].
    pose proof (clamp01_fin a) as E.
    destruct (Qclamp01_cases a) as (R & _).
    destruct (clamp01 (JS.Fin a)) as [c| | |]; simpl in E; try contradiction.
    simpl. rewrite E. exact R.
  - right. split; [discriminate|]. vm_compute. split; discriminate.
  - right. split; [discriminate|]. vm_compute. split; discriminate.
  - left. split; reflexivity.
Qed.

(** X2.  [clamp01] is idempotent on every number. *)
Theorem clamp01_idempotent (x : JS.number) :
  clamp01 (clamp01 x) = clamp01 x.
Proof.
  destruct x as [a| | |]; try reflexivity.
  assert (C : clamp01 (JS.Fin a)
              = if Qle_bool 0 a
                then if Qle_bool 1 a then JS.Fin 1 else JS.Fin a
                else JS.Fin 0).
  { unfold clamp01, JS.max, JS.min, JS.zero, JS.one.
    destruct (Qle_bool 0 a); reflexivity. }
  rewrite C.
  destruct (Qle_bool 0 a) eqn:E0; [destruct (Qle_bool 1 a) eqn:E1|];
    try reflexivity.
  unfold clamp01, JS.max, JS.min, JS.zero, JS.one. now rewrite E0, E1.
Qed.

Lemma Qclamp01_monotone (a b : Q) : a <= b -> Qclamp01 a <= Qclamp01 b.
Proof.
  intro H.
  destruct (Qclamp01_cases a) as (Ra & La & Ha & Ma).
  destruct (Qclamp01_cases b) as (Rb & Lb & Hb & Mb).
  destruct (Qlt_le_dec 0 a) as [A0|A0]; [|rewrite (La A0); lra].
  destruct (Qlt_le_dec b 1) as [B1|B1]; [|rewrite (Hb B1); lra].
  rewrite Ma, Mb by lra. exact H.
Qed.

(** X3.  On a track of positive width the stored volume grows with the
    pointer position: a pointer further right never gives a lower
    volume. *)
Theorem volume_monotone (st : Player) (x1 x2 trackLeft trackWidth : Q) :
  0 < trackWidth -> x1 <= x2 ->
  let rect := {| left := JS.Fin trackLeft; width := JS.Fin trackWidth |} in
  number_le
    (volume (handleSetVolumeFromClientX (JS.Fin x1) (Some rect) st))
    (volume (handleSetVolumeFromClientX (JS.Fin x2) (Some rect) st)).
Proof.
  intros Hw Hx rect. rewrite !volume_update. simpl left. simpl width.
  unfold JS.sub, JS.neg, JS.add. rewrite !div_fin by lra.
  pose proof (clamp01_fin ((x1 + - trackLeft) / trackWidth)) as E1.
  pose proof (clamp01_fin ((x2 + - trackLeft) / trackWidth)) as E2.
  destruct (clamp01 (JS.Fin ((x1 + - trackLeft) / trackWidth)))
    as [c1| | |]; simpl in E1; try contradiction.
  destruct (clamp01 (JS.Fin ((x2 + - trackLeft) / trackWidth)))
    as [c2| | |]; simpl in E2; try contradiction.
  simpl. rewrite E1, E2. apply Qclamp01_monotone.
  apply Qle_shift_div_l; [assumption|].
  unfold Qdiv. rewrite <- Qmult_assoc, (Qmult_comm (/ trackWidth)).
  rewrite Qmult_inv_r by lra. lra.
Qed.

Lemma volume_monotone_witness :
  let rect := {| left := JS.Fin 100; width := JS.Fin 80 |} in
  number_le
    (volume (handleSetVolumeFromClientX (JS.Fin 120) (Some rect) initial))
    (volume (handleSetVolumeFromClientX (JS.Fin 150) (Some rect) initial)).
Proof.
  apply (volume_monotone initial 120 150 100 80).
  - vm_compute. reflexivity.
  - vm_compute. discriminate.
Defined.

(** ** [formatTime] *)

(** X4.  [formatTime] does not sanitise a number that is not finite: NaN
    and positive infinity show through in the label, negative infinity is
    clamped to zero like any negative input. *)
Theorem formatTime_nonfinite :
  formatTime JS.NaN = "NaN:NaN"%string /\
  formatTime JS.PosInf = "Infinity:NaN"%string /\
  formatTime JS.NegInf = "0:00"%string.
Proof. repeat split; vm_compute; reflexivity. Qed.

Lemma length_append (s1 s2 : string) :
  String.length (append s1 s2) = (String.length s1 + String.length s2)%nat.
Proof. induction s1 as [|c s1 IH]; simpl; [reflexivity | now rewrite IH]. Qed.

Lemma append_inj (s1 s2 r1 r2 : string) :
  String.length s1 = String.length s2 ->
  append s1 r1 = append s2 r2 -> s1 = s2 /\ r1 = r2.
Proof.
  revert s2. induction s1 as [|c s1 IH]; intros [|c' s2] Hl H;
    simpl in *; try discriminate.
  - now split.
  - injection H as -> H. injection Hl as Hl.
    destruct (IH s2 Hl H) as [-> ->]. now split.
Qed.

Lemma digits_inj (a b : Z) : JS.digits a = JS.digits b -> a = b.
Proof.
  unfold JS.digits. intro H.
  assert (N : forall z, Z.to_int z <> Decimal.Pos Decimal.Nil /\
                        Z.to_int z <> Decimal.Neg Decimal.Nil).
  { intros [|p|p]; simpl; split; try discriminate; intros [= E];
      exact (DecimalPos.Unsigned.to_uint_nonnil p E). }
  apply DecimalZ.to_int_inj.
  assert (E : Some (Z.to_int a) = Some (Z.to_int b)).
  { rewrite <- (NilZero.isi (Z.to_int a)) by apply N.
    rewrite <- (NilZero.isi (Z.to_int b)) by apply N.
    now rewrite H. }
  now injection E.
Qed.

Lemma twoDigits_inj (a b : Z) :
  (0 <= a < 60)%Z -> (0 <= b < 60)%Z -> twoDigits a = twoDigits b -> a = b.
Proof.
  intros Ha Hb H.
  assert (A : forallb
                (fun x =>
                   forallb
                     (fun y =>
                        implb (String.eqb (twoDigits x) (twoDigits y))
                          (x =? y)%Z)
                     (below 60))
                (below 60) = true) by (vm_compute; reflexivity).
  rewrite forallb_forall in A.
  specialize (A a (below_In 60 a ltac:(simpl; lia))).
  rewrite forallb_forall in A.
  specialize (A b (below_In 60 b ltac:(simpl; lia))).
  apply String.eqb_eq in H. rewrite H in A. simpl in A.
  now apply Z.eqb_eq.
Qed.

Lemma formatTime_label (q : Q) :
  formatTime (JS.Fin q)
  = append (JS.digits (Z.max 0 (Qfloor q) / 60))
      (append ":" (twoDigits (Z.max 0 (Qfloor q) mod 60))).
Proof. rewrite formatTime_floor. apply formatTime_Z. lia. Qed.

(** X5.  The label tells whole seconds apart: two finite times with the
    same label have the same floor, once clamped at zero. *)
Theorem formatTime_injective (q1 q2 : Q) :
  formatTime (JS.Fin q1) = formatTime (JS.Fin q2) ->
  Z.max 0 (Qfloor q1) = Z.max 0 (Qfloor q2).
Proof.
  rewrite !formatTime_label.
  set (n1 := Z.max 0 (Qfloor q1)). set (n2 := Z.max 0 (Qfloor q2)).
  intro H.
  assert (Hl : String.length (JS.digits (n1 / 60))
               = String.length (JS.digits (n2 / 60))).
  { apply (f_equal String.length) in H.
    rewrite !length_append in H. simpl in H. lia. }
  destruct (append_inj _ _ _ _ Hl H) as [Hm Hs].
  apply digits_inj in Hm.
  assert (Hs' : twoDigits (n1 mod 60) = twoDigits (n2 mod 60)).
  { apply (f_equal (fun s => match s with
                             | String _ t => t
                             | EmptyString => EmptyString
                             end)) in Hs.
    exact Hs. }
  apply twoDigits_inj in Hs'; try (apply Z.mod_pos_bound; lia).
  rewrite (Z.div_mod n1 60), (Z.div_mod n2 60) by lia.
  now rewrite Hm, Hs'.
Qed.

Lemma formatTime_injective_witness :
  Z.max 0 (Qfloor 83) = Z.max 0 (Qfloor (839 # 10)).
Proof.
  apply (formatTime_injective 83 (839 # 10)).
  vm_compute. reflexivity.
Defined.

(** ** More invariants of the reachable states *)

Lemma Live_initial : Live initial.
Proof.
  constructor; simpl; try discriminate; try tauto.
  split; vm_compute; [discriminate | reflexivity].
Qed.

Lemma sample_within (p : JS.number) :
  JS.within 0 1 p -> JS.within 0 225 (JS.mul p totalSeconds).
Proof.
  destruct p as [a| | |]; simpl; try tauto.
  intros [H0 H1].
  assert (E : 225000 / 1000 == 225) by reflexivity.
  rewrite E. split; nra.
Qed.

Lemma filter_due (f : Timeout -> bool) (l : list Timeout) (bound : Z) :
  (forall t, In t l -> (due t <= bound)%Z) ->
  forall t, In t (filter f l) -> (due t <= bound)%Z.
Proof. intros H t Hin. apply filter_In in Hin. now apply H. Qed.

Lemma Live_click (st : Player) : Live st -> Live (handleTogglePlayPause st).
Proof.
  intros [Hs Hi Hd]. unfold handleTogglePlayPause.
  destruct (isLoading st); [now constructor|].
  unfold setPlayerState, animationEffect, animationCleanup, setTimeout,
    clearTimeout, requestAnimationFrame, cancelAnimationFrame.
  destruct st; simpl in *.
  split_ifs; constructor; simpl; trivial; intros t Hin;
    apply in_app_or in Hin; destruct Hin as [Hin|[<-|[]]];
    simpl; try lia; try (now apply Hd);
    apply (filter_due _ _ _ Hd t Hin).
Qed.

Lemma Live_timeout (next : PlayerState) (h : Z) (st : Player) :
  Live st -> Live (toggleTimeoutCallback next (clearTimeout h st)).
Proof.
  intros [Hs Hi Hd].
  unfold toggleTimeoutCallback, setPlayerState, animationEffect,
    animationCleanup, clearTimeout, requestAnimationFrame,
    cancelAnimationFrame.
  destruct st; simpl in *.
  split_ifs; constructor; simpl; trivial;
    apply (filter_due _ _ _ Hd).
Qed.

Lemma Live_frame (now : JS.number) (h : Z) (st : Player) :
  Live st -> Live (tick now (cancelAnimationFrame h st)).
Proof.
  intros [Hs Hi Hd]. unfold tick.
  destruct (negb (isMountedRef (cancelAnimationFrame h st)));
    constructor; assumption.
Qed.

Lemma Live_unmount (st : Player) : Live st -> Live (unmount st).
Proof.
  intros [Hs Hi Hd].
  unfold unmount, animationCleanup, clearInterval, clearTimeout,
    cancelAnimationFrame.
  destruct st; simpl in *.
  split_ifs; constructor; simpl; trivial; try discriminate;
    apply (filter_due _ _ _ Hd).
Qed.

Lemma Live_step (e : Event) (st st' : Player) :
  Inv st -> Live st -> step e st = Some st' -> Live st'.
Proof.
  intros HI HL Hs. destruct e; simpl in Hs.
  - destruct (0 <=? ms)%Z eqn:Hms; [|discriminate]. injection Hs as <-.
    apply Z.leb_le in Hms. destruct HL as [H1 H2 H3].
    constructor; simpl; trivial.
    intros t Hin. specialize (H3 t Hin). lia.
  - destruct (isMountedRef st); [|discriminate]. injection Hs as <-.
    now apply Live_click.
  - destruct (findTimeout h st) as [t|]; [|discriminate].
    destruct (due t <=? clock st)%Z; [|discriminate]. injection Hs as <-.
    now apply Live_timeout.
  - destruct (existsb (Z.eqb h) (frames st)); [|discriminate].
    injection Hs as <-. now apply Live_frame.
  - destruct (interval st); [|discriminate]. injection Hs as <-.
    destruct HL as [H1 H2 H3]. constructor; trivial.
    apply sample_within, (inv_progress st HI).
  - destruct (isMountedRef st); [|discriminate]. injection Hs as <-.
    destruct HL as [H1 H2 H3]. destruct track; constructor; trivial.
  - destruct (isMountedRef st); [|discriminate]. injection Hs as <-.
    destruct HL as [H1 H2 H3]. unfold onPointerMove.
    destruct (negb _); [|destruct track]; constructor; trivial.
  - destruct (isMountedRef st); [|discriminate]. injection Hs as <-.
    now apply Live_unmount.
Qed.

Lemma reachable_Live (st : Player) : reachable st -> Live st.
Proof.
  induction 1 as [|e st st' Hre IH Hs]; [apply Live_initial|].
  exact (Live_step e st st' (reachable_Inv st Hre) IH Hs).
Qed.

(** X6.  In every reachable state the rotation angle lies in [[0, 360)],
    the progress fraction in [[0, 1)] and the displayed seconds in
    [[0, 225)]: no sequence of events takes them out of range. *)
Theorem reachable_ranges (st : Player) :
  reachable st ->
  JS.within 0 360 (artworkRotation st) /\
  JS.within 0 1 (progress st) /\
  JS.within 0 225 (currentSeconds st).
Proof.
  intro H. pose proof (reachable_Inv st H) as HI.
  pose proof (reachable_Live st H) as HL.
  split; [exact (inv_rotation st HI)|].
  split; [exact (inv_progress st HI) | exact (live_seconds st HL)].
Qed.

Lemma reachable_ranges_witness :
  JS.within 0 360
    (artworkRotation (after [FrameFires 3 0; FrameFires 4 21000] nowPlaying)) /\
  JS.within 0 1
    (progress (after [FrameFires 3 0; FrameFires 4 21000] nowPlaying)) /\
  JS.within 0 225
    (currentSeconds (after [FrameFires 3 0; FrameFires 4 21000] nowPlaying)).
Proof.
  apply (reachable_ranges (after [FrameFires 3 0; FrameFires 4 21000] nowPlaying)).
  apply (run_reachable [FrameFires 3 0; FrameFires 4 21000] nowPlaying);
    [exact nowPlaying_reachable | vm_compute; reflexivity].
Defined.

(** X7.  The animation loop never runs twice and never runs outside
    [playing]: in every reachable state the pending frame requests are
    exactly the one named by [rafId] when the component is mounted and
    playing, and none otherwise. *)
Theorem one_frame_loop (st : Player) :
  reachable st ->
  frames st = if isPlaying st && isMountedRef st then [rafId st] else [].
Proof.
  intro H. pose proof (reachable_Inv st H) as HI.
  unfold isPlaying.
  destruct (inv_frames st HI) as [E|(E & Hp & Hm)].
  - destruct (playerState st) eqn:Hp; simpl; trivial.
    destruct (isMountedRef st) eqn:Hm; trivial.
    exfalso. exact (inv_playing st HI Hm Hp E).
  - now rewrite Hp, Hm.
Qed.

Lemma one_frame_loop_witness :
  frames nowPlaying
  = if isPlaying nowPlaying && isMountedRef nowPlaying
    then [rafId nowPlaying] else [].
Proof.
  apply (one_frame_loop nowPlaying). exact nowPlaying_reachable.
Defined.

(** A due timeout of a mounted component fires and leaves it mounted. *)
Lemma fire_mounted (st : Player) (t : Timeout) :
  timeouts st = [t] -> isMountedRef st = true ->
  (due t <= clock st)%Z ->
  exists st',
    step (TimeoutFires (handle t)) st = Some st' /\
    playerState st' = nextState t /\ isMountedRef st' = true.
Proof.
  intros E Hm Hd. simpl. unfold findTimeout. rewrite E. simpl.
  rewrite Z.eqb_refl. apply Z.leb_le in Hd. rewrite Hd.
  eexists. split; [reflexivity|].
  destruct (setPlayerState_fields (nextState t)
              (clearTimeout (handle t) st)) as (F1 & F2 & _).
  unfold toggleTimeoutCallback.
  change (isMountedRef (clearTimeout (handle t) st)) with (isMountedRef st).
  rewrite Hm. simpl. rewrite F1, F2. split; [reflexivity | exact Hm].
Qed.

(** X8.  Loading is transient: in a reachable state of a mounted
    component the state is [loading] exactly when a delayed transition is
    pending; that transition is the one [toggleTimeoutRef] names, it
    targets [playing] or [paused], it is due at most 500 ms ahead, and once
    500 ms have passed it can fire and sets its target. *)
Theorem loading_is_transient (st : Player) :
  reachable st -> isMountedRef st = true ->
  (playerState st = loading <-> timeouts st <> []) /\
  forall t, In t (timeouts st) ->
    timeouts st = [t] /\
    toggleTimeoutRef st = Some (handle t) /\
    (nextState t = playing \/ nextState t = paused) /\
    (due t <= clock st + TOGGLE_DELAY_MS)%Z /\
    exists st',
      run [Elapse TOGGLE_DELAY_MS; TimeoutFires (handle t)] st = Some st' /\
      playerState st' = nextState t.
Proof.
  intros H Hm. pose proof (reachable_Inv st H) as HI.
  pose proof (reachable_Live st H) as HL.
  split.
  - split; [exact (inv_loading st HI Hm)|].
    intro Hne.
    destruct (inv_timeouts st HI) as [E|(t & _ & _ & _ & _ & Hl & _)];
      [contradiction | exact Hl].
  - intros t Hin.
    pose proof (live_due st HL t Hin) as Hd.
    destruct (inv_timeouts st HI) as [E|(t' & E & Href & _ & Hn & Hl & _)];
      rewrite E in Hin; simpl in Hin; [contradiction|].
    destruct Hin as [<-|[]].
    split; [exact E|]. split; [exact Href|].
    split; [destruct (nextState t'); tauto|].
    split; [exact Hd|].
    set (st1 := set_clock st (clock st + TOGGLE_DELAY_MS)%Z).
    destruct (fire_mounted st1 t' E Hm) as (st' & Hs & Hp & _);
      [simpl; lia|].
    exists st'. split; [|exact Hp].
    assert (SE : step (Elapse TOGGLE_DELAY_MS) st = Some st1) by reflexivity.
    cbn [run]. now rewrite SE, Hs.
Qed.

Lemma loading_is_transient_witness :
  (playerState (after [Click; Elapse 100] initial) = loading <->
   timeouts (after [Click; Elapse 100] initial) <> []) /\
  forall t, In t (timeouts (after [Click; Elapse 100] initial)) ->
    timeouts (after [Click; Elapse 100] initial) = [t] /\
    toggleTimeoutRef (after [Click; Elapse 100] initial) = Some (handle t) /\
    (nextState t = playing \/ nextState t = paused) /\
    (due t <= clock (after [Click; Elapse 100] initial) + TOGGLE_DELAY_MS)%Z /\
    exists st',
      run [Elapse TOGGLE_DELAY_MS; TimeoutFires (handle t)]
        (after [Click; Elapse 100] initial) = Some st' /\
      playerState st' = nextState t.
Proof.
  apply (loading_is_transient (after [Click; Elapse 100] initial)).
  - apply (run_reachable [Click; Elapse 100] initial);
      [apply reach_initial | vm_compute; reflexivity].
  - vm_compute. reflexivity.
Defined.

(** ** The clock, the debounce delay and teardown *)

(** Only the passing of time moves the clock, and only forward. *)
Lemma step_clock (e : Event) (st st' : Player) :
  step e st = Some st' ->
  match e with
  | Elapse ms => (0 <= ms)%Z /\ clock st' = (clock st + ms)%Z
  | _ => clock st' = clock st
  end.
Proof.
  intro Hs. destruct e; simpl in Hs.
  - destruct (0 <=? ms)%Z eqn:Hms; [|discriminate]. injection Hs as <-.
    apply Z.leb_le in Hms. now split.
  - destruct (isMountedRef st); [|discriminate]. injection Hs as <-.
    unfold handleTogglePlayPause, setPlayerState, animationEffect,
      animationCleanup, setTimeout, clearTimeout.
    destruct st; simpl. repeat (split_ifs; simpl); reflexivity.
  - destruct (findTimeout h st) as [t|]; [|discriminate].
    destruct (due t <=? clock st)%Z; [|discriminate]. injection Hs as <-.
    unfold toggleTimeoutCallback, setPlayerState, animationEffect,
      animationCleanup, clearTimeout.
    destruct st; simpl. repeat (split_ifs; simpl); reflexivity.
  - destruct (existsb (Z.eqb h) (frames st)); [|discriminate].
    injection Hs as <-. unfold tick.
    destruct (negb (isMountedRef (cancelAnimationFrame h st)));
      reflexivity.
  - destruct (interval st); [|discriminate]. now injection Hs as <-.
  - destruct (isMountedRef st); [|discriminate]. injection Hs as <-.
    now destruct track.
  - destruct (isMountedRef st); [|discriminate]. injection Hs as <-.
    unfold onPointerMove. destruct (negb _); [|destruct track]; reflexivity.
  - destruct (isMountedRef st); [|discriminate]. injection Hs as <-.
    unfold unmount, animationCleanup, clearInterval, clearTimeout.
    destruct st; simpl. repeat (split_ifs; simpl); reflexivity.
Qed.

Lemma step_clock_le (e : Event) (st st' : Player) :
  step e st = Some st' -> (clock st <= clock st')%Z.
Proof.
  intro Hs. pose proof (step_clock e st st' Hs) as H.
  destruct e; lia.
Qed.

Lemma run_clock_le (es : list Event) (st st' : Player) :
  run es st = Some st' -> (clock st <= clock st')%Z.
Proof.
  revert st. induction es as [|e es IH]; intros st Hr; simpl in Hr.
  - injection Hr as <-. lia.
  - destruct (step e st) as [s1|] eqn:Hs; [|discriminate].
    pose proof (step_clock_le e st s1 Hs). specialize (IH s1 Hr). lia.
Qed.

Lemma Inv_run (es : list Event) (st st' : Player) :
  Inv st -> run es st = Some st' -> Inv st'.
Proof.
  revert st. induction es as [|e es IH]; intros st HI Hr; simpl in Hr.
  - now injection Hr as <-.
  - destruct (step e st) as [s1|] eqn:Hs; [|discriminate].
    exact (IH s1 (Inv_step e st s1 HI Hs) Hr).
Qed.

(** While the pending timeout is not due, the state stays [loading]. *)
Lemma pending_until_due (t : Timeout) (es : list Event) (st st' : Player) :
  Inv st -> playerState st = loading ->
  isMountedRef st = false \/ timeouts st = [t] ->
  run es st = Some st' -> (clock st' < due t)%Z ->
  playerState st' = loading.
Proof.
  revert st. induction es as [|e es IH]; intros st HI Hl Hdis Hr Hc;
    simpl in Hr.
  - now injection Hr as <-.
  - destruct (step e st) as [s1|] eqn:Hs; [|discriminate].
    pose proof (Inv_step e st s1 HI Hs) as HI1.
    pose proof (run_clock_le es s1 st' Hr) as Hmono.
    destruct (isMountedRef st) eqn:Hm.
    + destruct Hdis as [|Ht]; [discriminate|].
      destruct e; simpl in Hs; rewrite ?Hm in Hs.
      * destruct (0 <=? ms)%Z; [|discriminate]. injection Hs as <-.
        apply (IH _ HI1); trivial. right. exact Ht.
      * injection Hs as <-.
        rewrite (loading_toggle_ignored st Hl) in *.
        apply (IH _ HI1); trivial. right. exact Ht.
      * destruct (findTimeout h st) as [t'|] eqn:Hf; [|discriminate].
        destruct (due t' <=? clock st)%Z eqn:Hdue; [|discriminate].
        injection Hs as <-.
        destruct (findTimeout_pending st h t' HI Hf) as (Ht' & _).
        rewrite Ht in Ht'. injection Ht' as <-.
        apply Z.leb_le in Hdue.
        pose proof (step_clock_le (TimeoutFires h) st _
                      ltac:(simpl; rewrite Hf;
                            apply Z.leb_le in Hdue; rewrite Hdue;
                            reflexivity)).
        lia.
      * rewrite (Inv_no_frame st HI) in Hs
          by (rewrite Hl; discriminate).
        discriminate.
      * destruct (interval st); [|discriminate]. injection Hs as <-.
        apply (IH _ HI1); trivial. right. exact Ht.
      * injection Hs as <-.
        destruct (volume_fields (JS.Fin clientX) track st) as (F & _).
        apply (IH _ HI1); [congruence| |exact Hr|exact Hc].
        right. destruct track; exact Ht.
      * injection Hs as <-. unfold onPointerMove in *.
        destruct (negb _).
        -- apply (IH _ HI1); trivial. right. exact Ht.
        -- destruct (volume_fields (JS.Fin clientX) track st) as (F & _).
           apply (IH _ HI1); [congruence| |exact Hr|exact Hc].
           right. destruct track; exact Ht.
      * injection Hs as <-.
        destruct (unmount_fields st) as (F1 & F2 & _).
        apply (IH _ HI1); [congruence| |exact Hr|exact Hc].
        left. exact F2.
    + destruct (unmounted_step e st s1 HI Hm Hs) as (P1 & M1 & _).
      apply (IH _ HI1); [congruence| |exact Hr|exact Hc].
      left. exact M1.
Qed.

(** X9.  The debounce delay is a lower bound: after an effective toggle
    the state is [loading] for as long as fewer than 500 ms have passed,
    whatever else happens in between (clicks, pointer input, samples,
    teardown). *)
Theorem loading_lasts_the_delay (st st' : Player) (es : list Event) :
  reachable st -> isMountedRef st = true -> playerState st <> loading ->
  run (Click :: es) st = Some st' ->
  (clock st' < clock st + TOGGLE_DELAY_MS)%Z ->
  playerState st' = loading.
Proof.
  intros Hre Hm Hnl Hr Hc.
  pose proof (reachable_Inv st Hre) as HI.
  destruct (click_effect st HI Hnl) as (Cl & Cm & Cc & Ct).
  cbn [run] in Hr. simpl step in Hr. rewrite Hm in Hr.
  eapply (pending_until_due _ es (handleTogglePlayPause st) st');
    [apply Inv_click; assumption | exact Cl | right; exact Ct
    | exact Hr | simpl; exact Hc].
Qed.

Lemma loading_lasts_the_delay_witness :
  playerState
    (after [Click; Elapse 200; Click; IntervalFires; Elapse 299] initial)
  = loading.
Proof.
  apply (loading_lasts_the_delay initial
           (after [Click; Elapse 200; Click; IntervalFires; Elapse 299]
              initial)
           [Elapse 200; Click; IntervalFires; Elapse 299]).
  - exact reach_initial.
  - vm_compute. reflexivity.
  - vm_compute. discriminate.
  - vm_compute. reflexivity.
  - vm_compute. reflexivity.
Defined.

(** After teardown the only event that can occur is the passing of time,
    and it changes the clock only. *)
Lemma unmounted_only_elapse (e : Event) (st st' : Player) :
  Inv st -> isMountedRef st = false -> step e st = Some st' ->
  exists ms, e = Elapse ms /\ st' = set_clock st (clock st + ms)%Z.
Proof.
  intros HI Hm Hs.
  destruct (Inv_unmounted st HI Hm) as [Ht Hf].
  pose proof (inv_interval st HI Hm) as Hi.
  destruct e; simpl in Hs; unfold findTimeout in Hs;
    rewrite ?Hm, ?Ht, ?Hf, ?Hi in Hs; simpl in Hs; try discriminate.
  destruct (0 <=? ms)%Z; [|discriminate]. injection Hs as <-.
  now exists ms.
Qed.

Lemma unmounted_frozen (es : list Event) (st st' : Player) :
  Inv st -> isMountedRef st = false -> run es st = Some st' ->
  set_clock st' (clock st) = set_clock st (clock st) /\
  isMountedRef st' = false.
Proof.
  revert st. induction es as [|e es IH]; intros st HI Hm Hr; simpl in Hr.
  - injection Hr as <-. now split.
  - destruct (step e st) as [s1|] eqn:Hs; [|discriminate].
    destruct (unmounted_only_elapse e st s1 HI Hm Hs) as (ms & -> & E).
    destruct (IH s1 (Inv_step _ st s1 HI Hs)
                ltac:(rewrite E; exact Hm) Hr) as (F & M).
    split; [|exact M].
    apply (f_equal (fun s => set_clock s (clock st))) in F.
    rewrite E in F. exact F.
Qed.

(** X10.  Teardown cancels everything: after [Unmount] no timeout, no
    frame request and no interval is left, the only event that can still
    occur is the passing of time, and whatever follows leaves every field
    of the state but the clock as teardown left it. *)
Theorem teardown_freezes (st st' : Player) (es : list Event) :
  reachable st -> run (Unmount :: es) st = Some st' ->
  timeouts st' = [] /\ frames st' = [] /\ interval st' = None /\
  set_clock st' (clock st) = unmount st /\
  forall e st'', step e st' = Some st'' -> exists ms, e = Elapse ms.
Proof.
  intros Hre Hr. pose proof (reachable_Inv st Hre) as HI.
  cbn [run] in Hr. simpl step in Hr.
  destruct (isMountedRef st) eqn:Hm; [|discriminate].
  destruct (unmount_fields st) as (_ & M1 & _).
  pose proof (Inv_unmount st HI) as HI1.
  destruct (unmounted_frozen es (unmount st) st' HI1 M1 Hr) as (F & M).
  pose proof (Inv_run es (unmount st) st' HI1 Hr) as HI'.
  destruct (Inv_unmounted st' HI' M) as [Ht Hf].
  split; [exact Ht|]. split; [exact Hf|].
  split; [exact (inv_interval st' HI' M)|].
  split.
  - assert (Ec : clock (unmount st) = clock st).
    { pose proof (step_clock Unmount st (unmount st)
                    ltac:(simpl; now rewrite Hm)) as C. exact C. }
    rewrite Ec in F. rewrite F.
    rewrite <- Ec. now destruct (unmount st).
  - intros e st'' Hs.
    destruct (unmounted_only_elapse e st' st'' HI' M Hs) as (ms & E & _).
    now exists ms.
Qed.

Lemma teardown_freezes_witness :
  timeouts (after [Unmount; Elapse 1000] nowPlaying) = [] /\
  frames (after [Unmount; Elapse 1000] nowPlaying) = [] /\
  interval (after [Unmount; Elapse 1000] nowPlaying) = None /\
  set_clock (after [Unmount; Elapse 1000] nowPlaying) (clock nowPlaying)
  = unmount nowPlaying /\
  forall e st'',
    step e (after [Unmount; Elapse 1000] nowPlaying) = Some st'' ->
    exists ms, e = Elapse ms.
Proof.
  apply (teardown_freezes nowPlaying
           (after [Unmount; Elapse 1000] nowPlaying) [Elapse 1000]).
  - exact nowPlaying_reachable.
  - vm_compute. reflexivity.
Defined.

(** ** The label sampler *)

(** X11.  The label sampler lives exactly as long as the component: in
    every reachable state its interval is installed if and only if the
    component is mounted, whatever the play state; while mounted a sample
    can always be taken and stores [progress * 225] as the displayed
    seconds without touching the play state; after teardown none can. *)
Theorem sampler_lifetime (st : Player) :
  reachable st ->
  (isMountedRef st = true <-> interval st <> None) /\
  (isMountedRef st = true ->
   exists st',
     step IntervalFires st = Some st' /\
     currentSeconds st' = JS.mul (progress st) totalSeconds /\
     playerState st' = playerState st /\ progress st' = progress st) /\
  (isMountedRef st = false -> step IntervalFires st = None).
Proof.
  intro Hre. pose proof (reachable_Inv st Hre) as HI.
  pose proof (reachable_Live st Hre) as HL.
  split; [split|split].
  - exact (live_sampler st HL).
  - intro Hne. destruct (isMountedRef st) eqn:Hm; trivial.
    elim Hne. exact (inv_interval st HI Hm).
  - intro Hm. pose proof (live_sampler st HL Hm) as Hi.
    simpl. destruct (interval st); [|contradiction].
    eexists. split; [reflexivity|]. repeat split.
  - intro Hm. simpl. now rewrite (inv_interval st HI Hm).
Qed.

Lemma sampler_lifetime_witness :
  (isMountedRef resuming = true <-> interval resuming <> None) /\
  (isMountedRef resuming = true ->
   exists st',
     step IntervalFires resuming = Some st' /\
     currentSeconds st' = JS.mul (progress resuming) totalSeconds /\
     playerState st' = playerState resuming /\
     progress st' = progress resuming) /\
  (isMountedRef resuming = false -> step IntervalFires resuming = None).
Proof.
  apply (sampler_lifetime resuming).
  apply (run_reachable [Click; Elapse 500] initial);
    [apply reach_initial | vm_compute; reflexivity].
Defined.

Lemma Qfloor_within (c : Q) (n : Z) :
  0 <= c < inject_Z n -> (0 <= Qfloor c < n)%Z.
Proof.
  intros [H0 H1]. split.
  - change 0%Z with (Qfloor 0). now apply Qfloor_resp_le.
  - rewrite Zlt_Qlt. eapply Qle_lt_trans; [apply Qfloor_le | exact H1].
Qed.

(** X12.  The elapsed-time label is always well formed and never reaches
    the total: in every reachable state it reads [m:ss] with [m] at most
    3, [ss] two digits below 60, and stands for fewer than 225 seconds. *)
Theorem elapsedLabel_bounds (st : Player) :
  reachable st ->
  exists m s : Z,
    (0 <= m <= 3)%Z /\ (0 <= s < 60)%Z /\ (m * 60 + s < 225)%Z /\
    elapsedLabel st = append (JS.digits m) (append ":" (twoDigits s)).
Proof.
  intro Hre. pose proof (live_seconds st (reachable_Live st Hre)) as W.
  unfold elapsedLabel.
  destruct (within_Fin _ _ _ W) as (c & -> & Hc).
  pose proof (Qfloor_within c 225 Hc) as Hf.
  rewrite formatTime_label. rewrite Z.max_r by lia.
  exists (Qfloor c / 60)%Z, (Qfloor c mod 60)%Z.
  split; [|split; [|split; [|reflexivity]]];
    Z.div_mod_to_equations; lia.
Qed.

Lemma elapsedLabel_bounds_witness :
  exists m s : Z,
    (0 <= m <= 3)%Z /\ (0 <= s < 60)%Z /\ (m * 60 + s < 225)%Z /\
    elapsedLabel initial = append (JS.digits m) (append ":" (twoDigits s)).
Proof.
  apply (elapsedLabel_bounds initial). exact reach_initial.
Defined.

(** ** Volume and playback do not interfere *)

(** Events other than pointer input leave the volume alone. *)
Lemma step_volume (e : Event) (st st' : Player) :
  isPointer e = false -> step e st = Some st' -> volume st' = volume st.
Proof.
  intros Hp Hs. destruct e; try discriminate; simpl in Hs.
  - destruct (0 <=? ms)%Z; [|discriminate]. now injection Hs as <-.
  - destruct (isMountedRef st); [|discriminate]. injection Hs as <-.
    unfold handleTogglePlayPause, setPlayerState, animationEffect,
      animationCleanup, setTimeout, clearTimeout.
    destruct st; simpl. repeat (split_ifs; simpl); reflexivity.
  - destruct (findTimeout h st) as [t|]; [|discriminate].
    destruct (due t <=? clock st)%Z; [|discriminate]. injection Hs as <-.
    unfold toggleTimeoutCallback, setPlayerState, animationEffect,
      animationCleanup, clearTimeout.
    destruct st; simpl. repeat (split_ifs; simpl); reflexivity.
  - destruct (existsb (Z.eqb h) (frames st)); [|discriminate].
    injection Hs as <-. unfold tick.
    destruct (negb (isMountedRef (cancelAnimationFrame h st)));
      reflexivity.
  - destruct (interval st); [|discriminate]. now injection Hs as <-.
  - destruct (isMountedRef st); [|discriminate]. injection Hs as <-.
    unfold unmount, animationCleanup, clearInterval, clearTimeout.
    destruct st; simpl. repeat (split_ifs; simpl); reflexivity.
Qed.

Lemma laidOut_inv (rect : DOMRect) :
  laidOut rect = true ->
  exists l w, rect = {| left := JS.Fin l; width := JS.Fin w |} /\ 0 < w.
Proof.
  unfold laidOut. destruct rect as [[l| | |] [w| | |]]; simpl;
    try discriminate.
  intro H. exists l, w. split; [reflexivity|].
  apply negb_true_iff, Qle_bool_false in H. exact H.
Qed.

Lemma pointer_in_range (clientX : Q) (track : option DOMRect)
  (st : Player) :
  match track with Some rect => laidOut rect = true | None => True end ->
  JS.between 0 1 (volume st) ->
  JS.between 0 1
    (volume (handleSetVolumeFromClientX (JS.Fin clientX) track st)).
Proof.
  intros Hl Hv. destruct track as [rect|]; [|exact Hv].
  destruct (laidOut_inv rect Hl) as (l & w & -> & Hw).
  apply volume_in_range. intros [E _]. rewrite E in Hw. lra.
Qed.

Lemma step_volume_range (e : Event) (st st' : Player) :
  onLaidOutTrack e = true -> JS.between 0 1 (volume st) ->
  step e st = Some st' -> JS.between 0 1 (volume st').
Proof.
  intros Hl Hv Hs.
  destruct (isPointer e) eqn:Hp;
    [|now rewrite (step_volume e st st' Hp Hs)].
  destruct e; try discriminate; simpl in Hs;
    (destruct (isMountedRef st); [|discriminate]); injection Hs as <-.
  - apply pointer_in_range; [|exact Hv]. now destruct track.
  - unfold onPointerMove. destruct (negb _); [exact Hv|].
    apply pointer_in_range; [|exact Hv]. now destruct track.
Qed.

(** X13.  As long as every pointer event finds a laid-out track (finite
    left edge, finite positive width) or none at all, the volume of every
    state the component reaches lies in [[0, 1]]. *)
Theorem volume_stays_in_range (es : list Event) (st : Player) :
  forallb onLaidOutTrack es = true ->
  run es initial = Some st ->
  JS.between 0 1 (volume st).
Proof.
  assert (G : forall es s s',
             forallb onLaidOutTrack es = true ->
             JS.between 0 1 (volume s) -> run es s = Some s' ->
             JS.between 0 1 (volume s')).
  { clear. induction es as [|e es IH]; intros s s' Hl Hv Hr; simpl in *.
    - now injection Hr as <-.
    - apply andb_true_iff in Hl. destruct Hl as [He Hes].
      destruct (step e s) as [s1|] eqn:Hs; [|discriminate].
      exact (IH s1 s' Hes (step_volume_range e s s1 He Hv Hs) Hr). }
  intros Hl Hr. apply (G es initial st Hl); [|exact Hr].
  vm_compute. split; discriminate.
Qed.

Lemma volume_stays_in_range_witness :
  JS.between 0 1
    (volume
       (after
          [PointerDown 500 (Some {| left := JS.Fin 100; width := JS.Fin 80 |});
           Click;
           PointerMove 1 90 (Some {| left := JS.Fin 100; width := JS.Fin 80 |})]
          initial)).
Proof.
  apply (volume_stays_in_range
           [PointerDown 500 (Some {| left := JS.Fin 100; width := JS.Fin 80 |});
            Click;
            PointerMove 1 90 (Some {| left := JS.Fin 100; width := JS.Fin 80 |})]).
  - vm_compute. reflexivity.
  - vm_compute. reflexivity.
Defined.

Lemma set_volume_same (st : Player) : set_volume st (volume st) = st.
Proof. now destruct st. Qed.

(** An event other than pointer input does to a state with another volume
    what it does to the state, and keeps that other volume. *)
Lemma step_set_volume (e : Event) (st st' : Player) (v : JS.number) :
  isPointer e = false -> step e st = Some st' ->
  step e (set_volume st v) = Some (set_volume st' v).
Proof.
  intros Hp Hs. destruct e; try discriminate; simpl in Hs |- *.
  - destruct (0 <=? ms)%Z; [|discriminate]. now injection Hs as <-.
  - destruct (isMountedRef st); [|discriminate]. injection Hs as <-.
    f_equal.
    unfold handleTogglePlayPause, setPlayerState, animationEffect,
      animationCleanup, setTimeout, clearTimeout, isLoading, isPlaying.
    destruct st as [ps ? ? ref ? ? ? ? ? ? ? ? ? ?]; destruct ps; simpl;
      try reflexivity;
      (destruct ref as [r|]; [destruct (negb (r =? 0)%Z)|]); reflexivity.
  - change (findTimeout h (set_volume st v)) with (findTimeout h st).
    destruct (findTimeout h st) as [t|]; [|discriminate].
    destruct (due t <=? clock st)%Z; [|discriminate]. injection Hs as <-.
    f_equal.
    unfold toggleTimeoutCallback, setPlayerState, animationEffect,
      animationCleanup, clearTimeout, isPlaying.
    destruct st as [ps ? ? ref mnt ? ? ? ? ? ? ? ? ?];
      destruct ps, (nextState t), mnt; reflexivity.
  - destruct (existsb (Z.eqb h) (frames st)); [|discriminate].
    injection Hs as <-. f_equal. unfold tick.
    change (isMountedRef (cancelAnimationFrame h (set_volume st v)))
      with (isMountedRef (cancelAnimationFrame h st)).
    destruct (negb (isMountedRef (cancelAnimationFrame h st)));
      reflexivity.
  - destruct (interval st); [|discriminate]. now injection Hs as <-.
  - destruct (isMountedRef st); [|discriminate]. injection Hs as <-.
    f_equal.
    unfold unmount, animationCleanup, clearInterval, clearTimeout,
      isPlaying.
    destruct st as [ps ? ? ref ? ? ? ? ? ? ? ? ? ?]; destruct ps; simpl;
      (destruct ref as [r|]; [destruct (negb (r =? 0)%Z)|]); reflexivity.
Qed.

(** Pointer input changes the volume and nothing else. *)
Lemma step_pointer (e : Event) (st st' : Player) :
  isPointer e = true -> step e st = Some st' ->
  st' = set_volume st (volume st').
Proof.
  intros Hp Hs. destruct e; try discriminate; simpl in Hs;
    (destruct (isMountedRef st); [|discriminate]); injection Hs as <-.
  - destruct track; simpl; [reflexivity | now rewrite set_volume_same].
  - unfold onPointerMove. destruct (negb _);
      [now rewrite set_volume_same|].
    destruct track; simpl; [reflexivity | now rewrite set_volume_same].
Qed.

Lemma run_without_pointer (es : list Event) (st st' : Player)
  (v : JS.number) :
  run es st = Some st' ->
  run (filter (fun e => negb (isPointer e)) es) (set_volume st v)
  = Some (set_volume st' v).
Proof.
  revert st. induction es as [|e es IH]; intros st Hr; simpl in Hr.
  - now injection Hr as <-.
  - destruct (step e st) as [s1|] eqn:Hs; [|discriminate].
    simpl. destruct (isPointer e) eqn:Hp; simpl.
    + rewrite (step_pointer e st s1 Hp Hs) in Hr.
      specialize (IH _ Hr). exact IH.
    + rewrite (step_set_volume e st s1 v Hp Hs). exact (IH s1 Hr).
Qed.

(** X15.  Volume and playback do not interfere.  Taking all pointer
    events out of a trace leads to the same state except for the volume,
    which then stays what it was; and an event that is not pointer input
    never changes the volume. *)
Theorem volume_playback_independent (es : list Event) (st st' : Player) :
  run es st = Some st' ->
  run (filter (fun e => negb (isPointer e)) es) st
  = Some (set_volume st' (volume st)) /\
  (forallb (fun e => negb (isPointer e)) es = true ->
   volume st' = volume st).
Proof.
  intro Hr.
  pose proof (run_without_pointer es st st' (volume st) Hr) as H.
  rewrite set_volume_same in H. split; [exact H|].
  intro Hall.
  assert (F : filter (fun e => negb (isPointer e)) es = es).
  { clear - Hall. induction es as [|e es IH]; simpl in *; [reflexivity|].
    apply andb_true_iff in Hall. destruct Hall as [He Hes].
    rewrite He. now rewrite (IH Hes). }
  rewrite F, Hr in H. injection H as H.
  rewrite H at 1. reflexivity.
Qed.

Lemma volume_playback_independent_witness :
  run (filter (fun e => negb (isPointer e))
         [Click;
          PointerDown 500 (Some {| left := JS.Fin 100; width := JS.Fin 80 |});
          Elapse 500; TimeoutFires 2])
    initial
  = Some
      (set_volume
         (after
            [Click;
             PointerDown 500
               (Some {| left := JS.Fin 100; width := JS.Fin 80 |});
             Elapse 500; TimeoutFires 2]
            initial)
         (volume initial)) /\
  (forallb (fun e => negb (isPointer e))
     [Click;
      PointerDown 500 (Some {| left := JS.Fin 100; width := JS.Fin 80 |});
      Elapse 500; TimeoutFires 2] = true ->
   volume
     (after
        [Click;
         PointerDown 500 (Some {| left := JS.Fin 100; width := JS.Fin 80 |});
         Elapse 500; TimeoutFires 2]
        initial)
   = volume initial).
Proof.
  apply (volume_playback_independent
           [Click;
            PointerDown 500
              (Some {| left := JS.Fin 100; width := JS.Fin 80 |});
            Elapse 500; TimeoutFires 2]
           initial).
  vm_compute. reflexivity.
Defined.

(** ** Completed toggles *)

(** An effective toggle, left alone for the delay, completes: the state
    becomes the toggle's target, and neither the rotation nor the progress
    has moved. *)
Lemma toggle_completes (st : Player) :
  Inv st -> isMountedRef st = true -> playerState st <> loading ->
  exists st',
    run [Click; Elapse TOGGLE_DELAY_MS; TimeoutFires (nextHandle st)] st
    = Some st' /\
    playerState st' = toggleTarget st /\ isMountedRef st' = true /\
    artworkRotation st' = artworkRotation st /\
    progress st' = progress st.
Proof.
  intros HI Hm Hnl.
  destruct (click_effect st HI Hnl) as (Cl & Cm & Cc & Ct).
  destruct (toggle_fields st) as (_ & _ & Tr & Tp & _).
  set (stA := handleTogglePlayPause st) in *.
  set (tA := {| handle := nextHandle st;
                due := (clock st + TOGGLE_DELAY_MS)%Z;
                nextState := if isPlaying st then paused else playing |})
    in *.
  set (stB := set_clock stA (clock stA + TOGGLE_DELAY_MS)%Z).
  assert (SA : step Click st = Some stA) by (simpl; now rewrite Hm).
  assert (SB : step (Elapse TOGGLE_DELAY_MS) stA = Some stB) by reflexivity.
  destruct (fire_mounted stB tA Ct) as (stC & SC & PC & MC).
  { change (isMountedRef stA = true). now rewrite Cm. }
  { simpl. rewrite Cc. lia. }
  pose proof (Inv_step _ _ _ (Inv_step _ _ _ HI SA) SB) as HIB.
  assert (FB : frames stB = [])
    by (apply (Inv_no_frame stB HIB);
        change (playerState stA <> playing); rewrite Cl; discriminate).
  destruct (step_keeps_motion _ stB stC FB SC) as (Kr & Kp & _).
  exists stC. split.
  { cbn [run]. rewrite SA, SB. change (handle tA) with (nextHandle st) in SC.
    now rewrite SC. }
  split; [exact PC|]. split; [exact MC|].
  split; [rewrite Kr; exact Tr | rewrite Kp; exact Tp].
Qed.



(** X19.  The button's label names what a click does: while it reads
    "Loading" a click is ignored; while it reads "Play" a click, left
    alone for the delay, leads to [playing]; while it reads "Pause", to
    [paused]. *)
Theorem ariaLabel_names_the_action (st : Player) :
  reachable st -> isMountedRef st = true ->
  (ariaLabel st = "Loading"%string /\ step Click st = Some st) \/
  (ariaLabel st = "Play"%string /\
   exists st',
     run [Click; Elapse TOGGLE_DELAY_MS; TimeoutFires (nextHandle st)] st
     = Some st' /\ playerState st' = playing) \/
  (ariaLabel st = "Pause"%string /\
   exists st',
     run [Click; Elapse TOGGLE_DELAY_MS; TimeoutFires (nextHandle st)] st
     = Some st' /\ playerState st' = paused).
Proof.
  intros Hre Hm. pose proof (reachable_Inv st Hre) as HI.
  unfold ariaLabel, isLoading, isPlaying.
  destruct (playerState st) eqn:Hp; simpl.
  - right. right. split; [reflexivity|].
    destruct (toggle_completes st HI Hm ltac:(rewrite Hp; discriminate))
      as (st' & R & P & _).
    exists st'. split; [exact R|].
    rewrite P. unfold toggleTarget, isPlaying. now rewrite Hp.
  - right. left. split; [reflexivity|].
    destruct (toggle_completes st HI Hm ltac:(rewrite Hp; discriminate))
      as (st' & R & P & _).
    exists st'. split; [exact R|].
    rewrite P. unfold toggleTarget, isPlaying. now rewrite Hp.
  - left. split; [reflexivity|].
    simpl. rewrite Hm. now rewrite (loading_toggle_ignored st Hp).
Qed.

Lemma ariaLabel_names_the_action_witness :
  (ariaLabel initial = "Loading"%string /\ step Click initial = Some initial) \/
  (ariaLabel initial = "Play"%string /\
   exists st',
     run [Click; Elapse TOGGLE_DELAY_MS; TimeoutFires (nextHandle initial)]
       initial
     = Some st' /\ playerState st' = playing) \/
  (ariaLabel initial = "Pause"%string /\
   exists st',
     run [Click; Elapse TOGGLE_DELAY_MS; TimeoutFires (nextHandle initial)]
       initial
     = Some st' /\ playerState st' = paused).
Proof.
  apply (ariaLabel_names_the_action initial).
  - exact reach_initial.
  - reflexivity.
Defined.

(** ** Where the animation loop stops *)

Lemma midPlay_reachable : reachable midPlay.
Proof.
  apply (run_reachable [FrameFires 3 100] nowPlaying);
    [exact nowPlaying_reachable | vm_compute; reflexivity].
Qed.

(** C5, as stated, fails at teardown: unmounting the playing component
    cancels the pending frame, so the loop stops, and the timestamp of the
    last frame is still 100. *)
Lemma timestamp_reset_on_stop_fails : ~ timestamp_reset_on_stop midPlay.
Proof.
  intro H.
  assert (C : lastFrameRef (unmount midPlay) = None).
  { apply (H Unmount (unmount midPlay)).
    - vm_compute. reflexivity.
    - vm_compute. discriminate.
    - vm_compute. reflexivity. }
  vm_compute in C. discriminate C.
Qed.

(** C5, amended.  Outside [playing] the rotation and the progress are
    never advanced, and the first frame after re-entering [playing] has
    elapsed time zero, because the timestamp of the last frame is reset
    whenever a state change takes the component out of [playing].
    Teardown stops the loop in another way: it cancels the pending frame
    and keeps the timestamp as it is, and nothing is advanced
    afterwards. *)
Theorem animation_only_while_playing (st : Player) :
  reachable st ->
  (playerState st <> playing ->
   lastFrameRef st = None /\
   frames st = [] /\
   forall e st',
     step e st = Some st' ->
     artworkRotation st' = artworkRotation st /\
     progress st' = progress st /\
     (playerState st' = playing ->
      lastFrameRef st' = None /\
      frames st' = [rafId st'] /\
      forall now : Q,
      exists st'',
        step (FrameFires (rafId st') now) st' = Some st'' /\
        deltaMs (lastFrameRef st') (JS.Fin now) === JS.Fin 0 /\
        artworkRotation st'' === artworkRotation st /\
        progress st'' === progress st)) /\
  (forall e st',
     step e st = Some st' ->
     playerState st = playing -> playerState st' <> playing ->
     frames st' = [] /\ lastFrameRef st' = None) /\
  (isMountedRef st = true ->
   step Unmount st = Some (unmount st) /\
   frames (unmount st) = [] /\
   lastFrameRef (unmount st) = lastFrameRef st /\
   forall es st',
     run es (unmount st) = Some st' ->
     artworkRotation st' = artworkRotation st /\
     progress st' = progress st /\
     lastFrameRef st' = lastFrameRef st).
Proof.
  intro Hre. pose proof (reachable_Inv st Hre) as HI.
  split; [exact (paused_animation_frozen st Hre)|]. split.
  - intros e st' Hs _ Hn.
    pose proof (Inv_step e st st' HI Hs) as HI'.
    split; [exact (Inv_no_frame st' HI' Hn)
           | exact (inv_lastFrame_reset st' HI' Hn)].
  - intro Hm.
    destruct (unmount_fields st) as (_ & M & Ur & Up & Ul).
    pose proof (Inv_unmount st HI) as HIu.
    split; [simpl; now rewrite Hm|].
    split; [exact (proj2 (Inv_unmounted _ HIu M))|].
    split; [exact Ul|].
    intros es st' Hr.
    destruct (unmounted_frozen es (unmount st) st' HIu M Hr) as (F & _).
    split; [|split].
    + apply (f_equal artworkRotation) in F. simpl in F. now rewrite F.
    + apply (f_equal progress) in F. simpl in F. now rewrite F.
    + apply (f_equal lastFrameRef) in F. simpl in F. now rewrite F.
Qed.

Lemma animation_only_while_playing_witness :
  (playerState midPlay <> playing ->
   lastFrameRef midPlay = None /\
   frames midPlay = [] /\
   forall e st',
     step e midPlay = Some st' ->
     artworkRotation st' = artworkRotation midPlay /\
     progress st' = progress midPlay /\
     (playerState st' = playing ->
      lastFrameRef st' = None /\
      frames st' = [rafId st'] /\
      forall now : Q,
      exists st'',
        step (FrameFires (rafId st') now) st' = Some st'' /\
        deltaMs (lastFrameRef st') (JS.Fin now) === JS.Fin 0 /\
        artworkRotation st'' === artworkRotation midPlay /\
        progress st'' === progress midPlay)) /\
  (forall e st',
     step e midPlay = Some st' ->
     playerState midPlay = playing -> playerState st' <> playing ->
     frames st' = [] /\ lastFrameRef st' = None) /\
  (isMountedRef midPlay = true ->
   step Unmount midPlay = Some (unmount midPlay) /\
   frames (unmount midPlay) = [] /\
   lastFrameRef (unmount midPlay) = lastFrameRef midPlay /\
   forall es st',
     run es (unmount midPlay) = Some st' ->
     artworkRotation st' = artworkRotation midPlay /\
     progress st' = progress midPlay /\
     lastFrameRef st' = lastFrameRef midPlay).
Proof.
  apply (animation_only_while_playing midPlay).
  exact midPlay_reachable.
Defined.
